(** * Managarm: netserver checksum, thor memory data model, ld-server segments

    A shallow embedding of
    - [servers/netserver/.../ip/checksum.cpp]  (module [Checksum]),
    - the kernel data types and the user-memory declarations of thor
      (module [Thor]),
    - the segment computation of [readObject] in ld-server
      (module [LdServer]),
    followed by the facts proved about each of them ([ChecksumFacts],
    [ThorFacts], [LdServerFacts]).

    Unsigned machine integers are values of [N] with the wrap-around of
    every operation written out; pointers are offsets in [Z] relative to
    the start of the buffer they were derived from. *)

From Stdlib Require Import ZArith NArith List Lia Bool.
From stdpp Require Import base option list gmap.
From Equations Require Import Equations.
Import ListNotations.

(* ===================================================================== *)
(** * The Internet checksum accumulator *)
(* ===================================================================== *)

Module Checksum.

Local Open Scope N_scope.

(** [class Checksum]: one unsigned accumulator. *)
Record Checksum : Type := mkChecksum { state : N }.

(** Modelled from the spec: the class declaration (checksum.hpp) is not
    among the sources; scenario S6 takes the checksum of the words alone,
    so the accumulator of a fresh object is zero. *)
Definition fresh : Checksum := mkChecksum 0.

(** Conversion of an [int] expression to the [uint16_t] parameter. *)
Definition to_uint16 (x : N) : N := x mod 2 ^ 16.

(** What a buffer access can see: the byte at an offset from [data], or
    nothing where the offset leaves the object. *)
Definition memory : Type := Z -> option Byte.byte.

(** A buffer of exactly the given bytes; every other offset is outside. *)
Definition buffer (bs : list Byte.byte) : memory :=
  fun off => if (off <? 0)%Z then None else nth_error bs (Z.to_nat off).

(** A buffer that is preceded by readable bytes (the last element of [pre]
    sits at offset -1). *)
Definition buffer_after (pre bs : list Byte.byte) : memory :=
  fun off => buffer (pre ++ bs) (off + Z.of_nat (length pre))%Z.

(** Either the updated object, or the offset of the first access that
    left the memory. *)
Inductive outcome : Type :=
| Done (c : Checksum)
| OutOfBounds (offset : Z).

Section Accumulator.

(** Width in bits of the [state] member.  Its declaration is in the
    absent header, so the width stays a parameter of the model. *)
Variable state_bits : N.

Definition wrap (x : N) : N := x mod 2 ^ state_bits.

(** [void Checksum::update(uint16_t word) { state += word; }] *)
Definition update (c : Checksum) (word : N) : Checksum :=
  mkChecksum (wrap (state c + word)).

(** [iter[0] << 8 | iter[1]], passed as [uint16_t]. *)
Definition be_word (b0 b1 : Byte.byte) : N :=
  to_uint16 (N.lor (N.shiftl (Byte.to_N b0) 8) (Byte.to_N b1)).

(** [iter[size - 1] << 8], passed as [uint16_t]. *)
Definition pad_word (b : Byte.byte) : N :=
  to_uint16 (N.shiftl (Byte.to_N b) 8).

(** [for (; iter < end; iter += 2) update(iter[0] << 8 | iter[1]);] *)
Equations? update_loop (mem : memory) (iter_ end_ : Z) (c : Checksum)
  : outcome by wf (Z.to_nat (end_ - iter_)) lt :=
  update_loop mem iter_ end_ c with Z_lt_dec iter_ end_ => {
    | right _ := Done c
    | left _ with mem iter_ => {
        | None := OutOfBounds iter_
        | Some b0 with mem (iter_ + 1)%Z => {
            | None := OutOfBounds (iter_ + 1)
            | Some b1 :=
                update_loop mem (iter_ + 2)%Z end_ (update c (be_word b0 b1)) } } }.
Proof. lia. Qed.

(** [void Checksum::update(void *data, size_t size)]; [data] is offset 0
    of [mem]. *)
Definition update_bytes (mem : memory) (size : N) (c : Checksum) : outcome :=
  let iter := 0%Z in
  if negb (size mod 2 =? 0) then
    let iter := (iter - 1)%Z in
    match mem (iter + Z.of_N (size - 1))%Z with
    | None => OutOfBounds (iter + Z.of_N (size - 1))
    | Some b =>
        let c := update c (pad_word b) in
        update_loop mem iter (iter + Z.of_N size)%Z c
    end
  else
    update_loop mem iter (iter + Z.of_N size)%Z c.

(** [arch::dma_buffer_view]: what the view points to and its size. *)
Record dma_buffer_view : Type := mkView {
  view_data : memory;
  view_size : N
}.

(** [void Checksum::update(arch::dma_buffer_view view)] *)
Definition update_view (view : dma_buffer_view) (c : Checksum) : outcome :=
  update_bytes (view_data view) (view_size view) c.

(** The loop of [finalize]:
    [while (state >> 16 != 0) state = (state >> 16) + (state & 0xffff);] *)
#[derive(eliminator=no)]
Equations? fold_carries (s : N) : N by wf (N.to_nat s) lt :=
  fold_carries s with N.eq_dec (N.shiftr s 16) 0 => {
    | left _ := s
    | right _ := fold_carries (wrap (N.shiftr s 16 + N.land s 0xffff)) }.
Proof.
  assert (Hs : N.shiftr s 16 + N.land s 0xffff < s).
  { rewrite N.shiftr_div_pow2 in *.
    change 0xffff with (N.ones 16). rewrite N.land_ones.
    pose proof (N.div_mod s (2 ^ 16) ltac:(discriminate)).
    pose proof (N.mod_lt s (2 ^ 16) ltac:(discriminate)).
    change (2 ^ 16) with 65536 in *. nia. }
  assert (Hw : wrap (N.shiftr s 16 + N.land s 0xffff)
               <= N.shiftr s 16 + N.land s 0xffff).
  { unfold wrap. apply N.Div0.mod_le. }
  lia.
Qed.

(** [uint16_t Checksum::finalize()]: fold, complement, truncate. *)
Definition finalize (c : Checksum) : N :=
  to_uint16 (N.lnot (fold_carries (state c)) state_bits).

(** ** Reference definitions, following the spec's words *)

(** The big-endian 16-bit words of a buffer; a trailing single byte is
    the high byte of a last word whose low byte is zero. *)
Fixpoint be_words (bs : list Byte.byte) : list N :=
  match bs with
  | b0 :: b1 :: rest => be_word b0 b1 :: be_words rest
  | [b] => [pad_word b]
  | [] => []
  end.

(** A sequence of [update(uint16_t)] calls. *)
Definition update_all (ws : list N) (c : Checksum) : Checksum :=
  fold_left update ws c.

(** [mem] holds the bytes [l] from offset [base] on. *)
Definition holds_at (mem : memory) (base : Z) (l : list Byte.byte) : Prop :=
  forall i, (i < length l)%nat -> mem (base + Z.of_nat i)%Z = nth_error l i.

(** The plain integer sum of a sequence of words. *)
Definition sum_words (ws : list N) : N := fold_right N.add 0 ws.

End Accumulator.

(** The eight bytes of scenario S6. *)
Definition s6_data : list Byte.byte :=
  [Byte.x00; Byte.x01; Byte.xf2; Byte.x03; Byte.xf4; Byte.xf5; Byte.xf6; Byte.xf7].

(** 65538 words whose plain sum is [2 ^ 32]. *)
Definition overflowing_words : list N := repeat 0xffff (N.to_nat 65537) ++ [1].

(** The end-around-carry fold on unbounded integers: the bits above bit 16
    are added into the low 16 bits until none remain. *)
#[derive(eliminator=no)]
Equations? end_around_carry (s : N) : N by wf (N.to_nat s) lt :=
  end_around_carry s with N.eq_dec (N.shiftr s 16) 0 => {
    | left _ := s
    | right _ := end_around_carry (N.shiftr s 16 + N.land s 0xffff) }.
Proof.
  rewrite N.shiftr_div_pow2 in *.
  change 0xffff with (N.ones 16). rewrite N.land_ones.
  pose proof (N.div_mod s (2 ^ 16) ltac:(discriminate)).
  pose proof (N.mod_lt s (2 ^ 16) ltac:(discriminate)).
  change (2 ^ 16) with 65536 in *. nia.
Qed.

(** The one's-complement checksum of a sum: the 16-bit complement of its
    fold. *)
Definition ones_complement_checksum (s : N) : N :=
  N.lnot (end_around_carry s) 16.

End Checksum.

(* ===================================================================== *)
(** * thor: kernel data types and the user-memory data model *)
(* ===================================================================== *)

Module Thor.

Local Open Scope N_scope.

(** ** Kernel data types *)

(** [enum Error { kErrSuccess, kErrBufferTooSmall };] of kernel.hpp, an
    older header than usermem.hpp. *)
Module Kernel.

Inductive Error : Type :=
| kErrSuccess
| kErrBufferTooSmall.

End Kernel.

(** Modelled from the spec: [error.hpp], from which usermem.hpp takes
    [Error], is not among the sources.  The error type has one value for
    each kind of the taxonomy of the spec: Success, BufferTooSmall,
    BadAddress, OutOfMemory, AccessDenied, Fault and PagerGone. *)
Inductive Error : Type :=
| kErrSuccess
| kErrBufferTooSmall
| kErrBadAddress
| kErrOutOfMemory
| kErrAccessDenied
| kErrFault
| kErrPagerGone.

(** The abstract error kinds of the spec's taxonomy, following the spec's
    words. *)
Inductive ErrorKind : Type :=
| Success
| BufferTooSmall
| BadAddress
| OutOfMemory
| AccessDenied
| Fault
| PagerGone.

(** An error type reports the kinds as distinct values when some
    assignment of a value to every kind is injective. *)
Definition distinguishes_all_kinds (E : Type) : Prop :=
  exists report : ErrorKind -> E,
    forall k1 k2, report k1 = report k2 -> k1 = k2.

Definition PhysicalAddr : Type := N.
Definition VirtualAddr : Type := N.
Definition kPageSize : N := 0x1000.

(** A worklet is known by its address only. *)
Definition Worklet : Type := N.

(** Modelled from the spec: [frigg::TicketLock] is not among the sources;
    a lock is either free or held. *)
Inductive TicketLock : Type :=
| LockFree
| LockHeld.

(** ** Completion nodes of the pager protocol *)

(** [struct ManageBase]: the results of the operation and the worklet. *)
Record ManageBase : Type := mkManageBase {
  manage_error : Error;
  manage_offset : N;
  manage_size : N;
  manage_worklet : Worklet
}.

(** [void setup(Error error, uintptr_t offset, size_t size)] *)
Definition ManageBase_setup (m : ManageBase) (error : Error) (offset size : N)
  : ManageBase :=
  mkManageBase error offset size (manage_worklet m).


(** [struct InitiateBase] *)
Record InitiateBase : Type := mkInitiateBase {
  initiate_offset : N;
  initiate_length : N;
  initiate_error : Error;
  initiate_worklet : Worklet;
  progress : N
}.

(** [void setup(Error error) { _error = error; }] *)
Definition InitiateBase_setup (i : InitiateBase) (error : Error) : InitiateBase :=
  mkInitiateBase (initiate_offset i) (initiate_length i) error
    (initiate_worklet i) (progress i).

(** [Error error() { return _error; }] *)
Definition InitiateBase_error (i : InitiateBase) : Error := initiate_error i.


(** ** ManagedSpace *)

(** [enum LoadState { kStateMissing, kStateLoading, kStateLoaded };] *)
Inductive LoadState : Type :=
| kStateMissing
| kStateLoading
| kStateLoaded.

(** [struct ManagedSpace]: every data member, in declaration order;
    vectors and intrusive lists are lists, the head of a list being the
    front of the queue.  A slot of [physicalPages] that holds no page yet
    is [None]. *)
Record ManagedSpace : Type := mkManagedSpace {
  mutex : TicketLock;
  physicalPages : list (option PhysicalAddr);
  loadState : list LoadState;
  initiateLoadQueue : list InitiateBase;
  pendingLoadQueue : list InitiateBase;
  completedLoadQueue : list InitiateBase;
  submittedManageQueue : list ManageBase;
  completedManageQueue : list ManageBase
}.

(** The load state of a page slot, where the slot exists. *)
Definition slot_state (m : ManagedSpace) (slot : nat) : option LoadState :=
  loadState m !! slot.

(** ** CowBundle *)

(** Modelled from the spec: [VirtualView] is abstract in the sources; a
    root view resolves an offset to its bundle, whose fetch yields the
    physical page that backs the offset. *)
Record VirtualView : Type := mkVirtualView {
  view_page : Z -> PhysicalAddr
}.

(** [struct CowBundle]: the two parent references (a null shared pointer
    is [None]), the window offset and the radix tree of pages, keyed by
    page index.  The lock and the [_copy] handle hold no part of the
    parent relation and are left out. *)
#[local] Unset Elimination Schemes.
Inductive CowBundle : Type := mkCowBundle {
  _superRoot : option VirtualView;
  _superChain : option CowBundle;
  _superOffset : Z;
  _pages : gmap Z PhysicalAddr
}.
#[local] Set Elimination Schemes.

(** The external page allocator and the page contents it hands out. *)
Record PhysicalMemory : Type := mkPhysicalMemory {
  next_page : PhysicalAddr;
  contents : gmap PhysicalAddr N
}.

Definition allocate_page (pm : PhysicalMemory) : PhysicalAddr * PhysicalMemory :=
  (next_page pm, mkPhysicalMemory (next_page pm + kPageSize) (contents pm)).

(** Copy the page at [src] into the page at [dst]. *)
Definition copy_page (dst src : PhysicalAddr) (pm : PhysicalMemory) : PhysicalMemory :=
  mkPhysicalMemory (next_page pm)
    (match contents pm !! src with
     | Some bytes => <[dst := bytes]> (contents pm)
     | None => delete dst (contents pm)
     end).

Definition page_index (offset : Z) : Z := (offset / Z.of_N kPageSize)%Z.

(** Modelled from the spec: the bodies of the two constructors are not
    among the sources.  A CowBundle is a copy-on-write view over a root
    [VirtualView] ... *)
Definition CowBundle_of_view (view : VirtualView) (offset : Z) (size : N)
  : CowBundle :=
  mkCowBundle (Some view) None offset ∅.

(** Modelled from the spec: ... or a copy-on-write layer over a parent
    CowBundle (second constructor, body not among the sources). *)
Definition CowBundle_of_chain (chain : CowBundle) (offset : Z) (size : N)
  : CowBundle :=
  mkCowBundle None (Some chain) offset ∅.

(** Modelled from the spec: [peekRange] (body not among the sources)
    returns the local copy if there is one and null otherwise; it never
    peeks the parent and changes nothing. *)
Definition peekRange (b : CowBundle) (offset : Z) : option PhysicalAddr :=
  _pages b !! page_index offset.

(** Modelled from the spec: [fetchRange] (body not among the sources).  A
    local copy is returned as it is.  Otherwise the page is fetched from
    the parent (the root view's bundle, or the parent CowBundle, which
    may copy in turn), a fresh page is allocated, the parent's page is
    copied into it and the copy is published in the local map.  A bundle
    without any parent has nothing to fetch from: [None]. *)
Fixpoint fetchRange (b : CowBundle) (offset : Z) (pm : PhysicalMemory)
  : option (CowBundle * PhysicalAddr * PhysicalMemory) :=
  match _pages b !! page_index offset with
  | Some page => Some (b, page, pm)
  | None =>
      let fetched :=
        match _superChain b, _superRoot b with
        | Some chain, _ =>
            match fetchRange chain (_superOffset b + offset)%Z pm with
            | Some (chain', page, pm') => Some (Some chain', page, pm')
            | None => None
            end
        | None, Some view =>
            Some (None, view_page view (_superOffset b + offset)%Z, pm)
        | None, None => None
        end in
      match fetched with
      | Some (chain', parent_page, pm1) =>
          let '(copy, pm2) := allocate_page pm1 in
          let pm3 := copy_page copy parent_page pm2 in
          Some (mkCowBundle (_superRoot b) chain' (_superOffset b)
                  (<[page_index offset := copy]> (_pages b)),
                copy, pm3)
      | None => None
      end
  end.

(** Exactly one of the two parent references is set. *)
Definition one_parent (b : CowBundle) : bool :=
  match _superRoot b, _superChain b with
  | Some _, None => true
  | None, Some _ => true
  | _, _ => false
  end.

(** ... in the bundle and in every bundle up its chain. *)
Fixpoint one_parent_chain (b : CowBundle) : bool :=
  one_parent b &&
  match _superChain b with
  | Some chain => one_parent_chain chain
  | None => true
  end.

(** The bundles that the constructors and operations produce. *)
Inductive produced : CowBundle -> Prop :=
| produced_of_view view offset size :
    produced (CowBundle_of_view view offset size)
| produced_of_chain chain offset size :
    produced chain -> produced (CowBundle_of_chain chain offset size)
| produced_fetch b offset pm b' page pm' :
    produced b ->
    fetchRange b offset pm = Some (b', page, pm') ->
    produced b'.

(** ** Holes *)

(** [struct Hole]: the interval and the aggregate of the subtree. *)
Record Hole : Type := mkHole {
  hole_address : VirtualAddr;
  hole_length : N;
  largestHole : N
}.

(** [Hole(VirtualAddr address, size_t length)
     : _address{address}, _length{length}, largestHole{0} { }] *)
Definition Hole_new (address : VirtualAddr) (length : N) : Hole :=
  mkHole address length 0.

(** [HoleLess] *)
Definition HoleLess (a b : Hole) : bool := hole_address a <? hole_address b.

Inductive Color : Type := Red | Black.

(** Modelled from the spec: [frigg::rbtree] is not among the sources.  A
    binary tree of holes; each node carries the colour of its hook. *)
Inductive HoleTree : Type :=
| Leaf
| Node (c : Color) (l : HoleTree) (h : Hole) (r : HoleTree).

(** [largestHole] of the root of a subtree, 0 for an absent child. *)
Definition subtree_largest (t : HoleTree) : N :=
  match t with
  | Leaf => 0
  | Node _ _ h _ => largestHole h
  end.

Definition aggregate_of (l : HoleTree) (h : Hole) (r : HoleTree) : N :=
  N.max (hole_length h) (N.max (subtree_largest l) (subtree_largest r)).

(** Modelled from the spec: [HoleAggregator::aggregate] (body not among
    the sources) stores the aggregation rule's value in the node and
    tells whether the value changed. *)
Definition aggregate (l : HoleTree) (h : Hole) (r : HoleTree) : bool * Hole :=
  (negb (largestHole h =? aggregate_of l h r),
   mkHole (hole_address h) (hole_length h) (aggregate_of l h r)).

(** Modelled from the spec: [HoleAggregator::check_invariant] (body not
    among the sources) compares the stored value with the rule. *)
Definition check_invariant (l : HoleTree) (h : Hole) (r : HoleTree) : bool :=
  largestHole h =? aggregate_of l h r.

Fixpoint check_tree (t : HoleTree) : bool :=
  match t with
  | Leaf => true
  | Node _ l h r => check_invariant l h r && check_tree l && check_tree r
  end.

(** Link a node under its children and aggregate it. *)
Definition link (c : Color) (l : HoleTree) (h : Hole) (r : HoleTree) : HoleTree :=
  Node c l (snd (aggregate l h r)) r.

(** Modelled from the spec: insertion descends by [HoleLess], links the
    new node red at a leaf and aggregates the path back to the root. *)
Fixpoint insertHole (h : Hole) (t : HoleTree) : HoleTree :=
  match t with
  | Leaf => link Red Leaf h Leaf
  | Node c l x r =>
      if HoleLess h x then link c (insertHole h l) x r
      else link c l x (insertHole h r)
  end.

(** Unlink the leftmost node of a non-empty tree. *)
Fixpoint removeMin (c : Color) (l : HoleTree) (h : Hole) (r : HoleTree)
  : Hole * HoleTree :=
  match l with
  | Leaf => (h, r)
  | Node cl ll hl rl =>
      let '(m, l') := removeMin cl ll hl rl in (m, link c l' h r)
  end.

(** Modelled from the spec: removal unlinks the hole at [address]; a node
    with two children is replaced by its successor; the path is
    aggregated back to the root. *)
Fixpoint removeHole (address : VirtualAddr) (t : HoleTree) : HoleTree :=
  match t with
  | Leaf => Leaf
  | Node c l x r =>
      if address <? hole_address x then link c (removeHole address l) x r
      else if hole_address x <? address then link c l x (removeHole address r)
      else match r with
           | Leaf => l
           | Node cr lr hr rr =>
               let '(m, r') := removeMin cr lr hr rr in link c l m r'
           end
  end.

(** Modelled from the spec: the rotations aggregate the demoted node and
    then the promoted one; colours stay with their nodes. *)
Definition rotateLeft (t : HoleTree) : HoleTree :=
  match t with
  | Node cx a x (Node cy b y d) => link cy (link cx a x b) y d
  | _ => t
  end.

Definition rotateRight (t : HoleTree) : HoleTree :=
  match t with
  | Node cy (Node cx a x b) y d => link cx a x (link cy b y d)
  | _ => t
  end.

Definition recolor (c : Color) (t : HoleTree) : HoleTree :=
  match t with
  | Leaf => Leaf
  | Node _ l h r => Node c l h r
  end.

Inductive Dir : Type := GoLeft | GoRight.

(** Apply a local step at the subtree a path leads to; the nodes above
    it are not touched. *)
Fixpoint at_path (f : HoleTree -> HoleTree) (path : list Dir) (t : HoleTree)
  : HoleTree :=
  match path, t with
  | [], _ => f t
  | _ :: _, Leaf => Leaf
  | GoLeft :: path', Node c l h r => Node c (at_path f path' l) h r
  | GoRight :: path', Node c l h r => Node c l h (at_path f path' r)
  end.

(** The states of a hole tree: empty at first, then any sequence of
    insertions, removals, rotations and recolourings. *)
Inductive reachable : HoleTree -> Prop :=
| reach_empty : reachable Leaf
| reach_insert t address length :
    reachable t -> reachable (insertHole (Hole_new address length) t)
| reach_remove t address :
    reachable t -> reachable (removeHole address t)
| reach_rotateLeft t path :
    reachable t -> reachable (at_path rotateLeft path t)
| reach_rotateRight t path :
    reachable t -> reachable (at_path rotateRight path t)
| reach_recolor t path c :
    reachable t -> reachable (at_path (recolor c) path t).

(** [n] is a node of [t], with its two children. *)
Inductive node_of : HoleTree -> HoleTree -> Hole -> HoleTree -> Prop :=
| node_here c l h r : node_of (Node c l h r) l h r
| node_left c l h r l' h' r' :
    node_of l l' h' r' -> node_of (Node c l h r) l' h' r'
| node_right c l h r l' h' r' :
    node_of r l' h' r' -> node_of (Node c l h r) l' h' r'.

(** The lengths of all holes of a tree, in order. *)
Fixpoint hole_lengths (t : HoleTree) : list N :=
  match t with
  | Leaf => []
  | Node _ l h r => hole_lengths l ++ hole_length h :: hole_lengths r
  end.

(** ** Faults *)

(** [enum MappingFlags] (the protection bits) and [enum FaultFlags]. *)
Definition protRead : N := 0x10.
Definition protWrite : N := 0x20.
Definition protExecute : N := 0x40.
Definition kFaultWrite : N := N.shiftl 1 1.
Definition kFaultExecute : N := N.shiftl 1 2.

(** [struct FaultNode].  The constructor initialises [_resolved] only; a
    member that has not been written yet is [None]. *)
Record FaultNode : Type := mkFaultNode {
  fault_address : option VirtualAddr;
  fault_flags : option N;
  _handled : option N;
  _resolved : bool;
  _bundleOffset : option N
}.

(** [FaultNode() : _resolved{false} { }] *)
Definition FaultNode_new : FaultNode :=
  mkFaultNode None None None false None.

(** [bool resolved() { return _resolved; }] *)
Definition resolved (node : FaultNode) : bool := _resolved node.

(** [struct Mapping]: the interval and the flags. *)
Record Mapping : Type := mkMapping {
  mapping_address : VirtualAddr;
  mapping_length : N;
  mapping_flags : N
}.

(** Modelled from the spec: [_getMapping] (body not among the sources)
    looks up the mapping whose half-open interval covers the address. *)
Definition covers (m : Mapping) (address : VirtualAddr) : bool :=
  (mapping_address m <=? address)
  && (address <? mapping_address m + mapping_length m).

(** [class AddressSpace]: the hole tree and the mappings (the mapping
    tree as the list of its nodes, in address order). *)
Record AddressSpace : Type := mkAddressSpace {
  _holes : HoleTree;
  _mappings : list Mapping
}.

Definition _getMapping (space : AddressSpace) (address : VirtualAddr)
  : option Mapping :=
  List.find (fun m => covers m address) (_mappings space).

Section HandleFault.

(** The fault policy of a mapping ([Mapping::handleFault], virtual):
    whether it completed at once, and the node it leaves. *)
Variable mapping_handleFault : Mapping -> FaultNode -> bool * FaultNode.

Definition complete_unresolved (node : FaultNode) : bool * FaultNode :=
  (true, mkFaultNode (fault_address node) (fault_flags node) (_handled node)
           false (_bundleOffset node)).

(** Modelled from the spec: [AddressSpace::handleFault] (body not among
    the sources).  Look up the covering mapping; if none, complete with
    resolved=false.  Else check the fault flags against the mapping's
    protection (write on read-only: unresolved).  Else dispatch to the
    mapping. *)
Definition handleFault (space : AddressSpace) (address : VirtualAddr)
    (flags : N) (node : FaultNode) (handled : N) : bool * FaultNode :=
  let node :=
    mkFaultNode (Some address) (Some flags) (Some handled)
      (_resolved node) (_bundleOffset node) in
  match _getMapping space address with
  | None => complete_unresolved node
  | Some mapping =>
      if negb (N.land flags kFaultWrite =? 0)
         && (N.land (mapping_flags mapping) protWrite =? 0)
      then complete_unresolved node
      else if negb (N.land flags kFaultExecute =? 0)
              && (N.land (mapping_flags mapping) protExecute =? 0)
      then complete_unresolved node
      else mapping_handleFault mapping node
  end.

End HandleFault.

(** ** The operations of a ManagedSpace *)

(** Modelled from the spec: [ManagedSpace(size_t length)] (body not among
    the sources) has one slot per page in both vectors, every page
    Missing and without physical page, empty queues and a free lock. *)
Definition ManagedSpace_new (length : N) : ManagedSpace :=
  let slots := N.to_nat (length / kPageSize) in
  mkManagedSpace LockFree (repeat None slots) (repeat kStateMissing slots)
    [] [] [] [] [].

(** The page slots of the range [offset, offset + length). *)
Definition range_slots (offset length : N) : list nat :=
  let first := N.to_nat (offset / kPageSize) in
  let limit := N.to_nat ((offset + length + kPageSize - 1) / kPageSize) in
  seq first (limit - first).

Definition is_missing (m : ManagedSpace) (slot : nat) : bool :=
  match slot_state m slot with
  | Some kStateMissing => true
  | _ => false
  end.

Definition is_loaded (m : ManagedSpace) (slot : nat) : bool :=
  match slot_state m slot with
  | Some kStateLoaded => true
  | _ => false
  end.

(** Modelled from the spec: [isComplete] (body not among the sources):
    every page of the range of the node is Loaded. *)
Definition isComplete (m : ManagedSpace) (initiate : InitiateBase) : bool :=
  forallb (is_loaded m)
    (range_slots (initiate_offset initiate) (initiate_length initiate)).

(** The first page that is Missing and requested by the head of the
    initiate queue. *)
Definition requested_missing (m : ManagedSpace) : option nat :=
  match initiateLoadQueue m with
  | head :: _ =>
      List.find (is_missing m)
        (range_slots (initiate_offset head) (initiate_length head))
  | [] => None
  end.

(** Modelled from the spec: the first loop of [progressLoads] (body not
    among the sources).  While the submitted queue is not empty and a
    page is Missing and requested by the head of the initiate queue: pop
    a manage node, allocate a physical page, mark the page Loading, write
    the page into the node's (offset, size) and move the node to the
    completed queue.  Each turn pops one node, so the length of the
    submitted queue bounds the turns. *)
Fixpoint pair_manage (turns : nat) (m : ManagedSpace) (pm : PhysicalMemory)
  : ManagedSpace * PhysicalMemory :=
  match turns with
  | O => (m, pm)
  | S turns' =>
      match submittedManageQueue m, requested_missing m with
      | manage :: submitted, Some slot =>
          let '(page, pm') := allocate_page pm in
          pair_manage turns'
            (mkManagedSpace (mutex m)
               (<[slot := Some page]> (physicalPages m))
               (<[slot := kStateLoading]> (loadState m))
               (initiateLoadQueue m) (pendingLoadQueue m)
               (completedLoadQueue m)
               submitted
               (completedManageQueue m
                ++ [ManageBase_setup manage kErrSuccess
                      (N.of_nat slot * kPageSize) kPageSize]))
            pm'
      | _, _ => (m, pm)
      end
  end.

(** Modelled from the spec: the second loop of [progressLoads].  Every
    node at the head of the initiate queue whose pages are all Loaded
    moves to the completed queue; the scan stops at the first node that
    is not complete and does not reorder.  The result is the nodes moved
    and the nodes kept. *)
Fixpoint complete_initiates (m : ManagedSpace) (queue : list InitiateBase)
  : list InitiateBase * list InitiateBase :=
  match queue with
  | [] => ([], [])
  | head :: rest =>
      if isComplete m head then
        let '(moved, kept) := complete_initiates m rest in
        (InitiateBase_setup head kErrSuccess :: moved, kept)
      else ([], queue)
  end.

(** Modelled from the spec: [progressLoads]. *)
Definition progressLoads (m : ManagedSpace) (pm : PhysicalMemory)
  : ManagedSpace * PhysicalMemory :=
  let '(m1, pm1) := pair_manage (length (submittedManageQueue m)) m pm in
  let '(moved, kept) := complete_initiates m1 (initiateLoadQueue m1) in
  (mkManagedSpace (mutex m1) (physicalPages m1) (loadState m1)
     kept (pendingLoadQueue m1) (completedLoadQueue m1 ++ moved)
     (submittedManageQueue m1) (completedManageQueue m1),
   pm1).

(** Every page of the range that is Loading becomes Loaded. *)
Definition mark_loaded (states : list LoadState) (offset length : N)
  : list LoadState :=
  fold_left
    (fun states slot =>
       match states !! slot with
       | Some kStateLoading => <[slot := kStateLoaded]> states
       | _ => states
       end)
    (range_slots offset length) states.

Definition set_mutex (lock : TicketLock) (m : ManagedSpace) : ManagedSpace :=
  mkManagedSpace lock (physicalPages m) (loadState m)
    (initiateLoadQueue m) (pendingLoadQueue m) (completedLoadQueue m)
    (submittedManageQueue m) (completedManageQueue m).

(** A body that runs under the lock of the space: it takes the lock,
    which has to be free, and releases it at the end. *)
Definition locked
    (body : ManagedSpace -> PhysicalMemory -> ManagedSpace * PhysicalMemory)
    (m : ManagedSpace) (pm : PhysicalMemory)
  : option (ManagedSpace * PhysicalMemory) :=
  match mutex m with
  | LockHeld => None
  | LockFree =>
      let '(m', pm') := body (set_mutex LockHeld m) pm in
      Some (set_mutex LockFree m', pm')
  end.

(** Modelled from the spec: [submitInitiateLoad] (body not among the
    sources) enqueues the node into the initiate queue, then
    [progressLoads]. *)
Definition submitInitiateLoad (initiate : InitiateBase) :=
  locked (fun m pm =>
    progressLoads
      (mkManagedSpace (mutex m) (physicalPages m) (loadState m)
         (initiateLoadQueue m ++ [initiate]) (pendingLoadQueue m)
         (completedLoadQueue m) (submittedManageQueue m)
         (completedManageQueue m)) pm).

(** Modelled from the spec: [submitManage] (body not among the sources)
    enqueues the node into the submitted queue, then [progressLoads]. *)
Definition submitManage (handle : ManageBase) :=
  locked (fun m pm =>
    progressLoads
      (mkManagedSpace (mutex m) (physicalPages m) (loadState m)
         (initiateLoadQueue m) (pendingLoadQueue m)
         (completedLoadQueue m) (submittedManageQueue m ++ [handle])
         (completedManageQueue m)) pm).

(** Modelled from the spec: [completeLoad] (body not among the sources):
    every page of the range that is Loading becomes Loaded (its physical
    page was recorded when the manage node was paired), then
    [progressLoads]. *)
Definition completeLoad (offset length : N) :=
  locked (fun m pm =>
    progressLoads
      (mkManagedSpace (mutex m) (physicalPages m)
         (mark_loaded (loadState m) offset length)
         (initiateLoadQueue m) (pendingLoadQueue m)
         (completedLoadQueue m) (submittedManageQueue m)
         (completedManageQueue m)) pm).

(** The calls of the client side and of the pager side. *)
Inductive PagerCall : Type :=
| CallSubmitInitiateLoad (initiate : InitiateBase)
| CallSubmitManage (handle : ManageBase)
| CallCompleteLoad (offset length : N).

Definition call (c : PagerCall) (m : ManagedSpace) (pm : PhysicalMemory)
  : option (ManagedSpace * PhysicalMemory) :=
  match c with
  | CallSubmitInitiateLoad initiate => submitInitiateLoad initiate m pm
  | CallSubmitManage handle => submitManage handle m pm
  | CallCompleteLoad offset length => completeLoad offset length m pm
  end.

Fixpoint calls (cs : list PagerCall) (m : ManagedSpace) (pm : PhysicalMemory)
  : option (ManagedSpace * PhysicalMemory) :=
  match cs with
  | [] => Some (m, pm)
  | c :: rest =>
      match call c m pm with
      | Some (m', pm') => calls rest m' pm'
      | None => None
      end
  end.





(** The calls of scenario S3 on a space of two pages. *)
Definition s3_initiate : InitiateBase := mkInitiateBase 0 0x2000 kErrFault 11 0.
Definition s3_manage1 : ManageBase := mkManageBase kErrFault 0 0 21.
Definition s3_manage2 : ManageBase := mkManageBase kErrFault 0 0 22.

Definition s3_calls : list PagerCall :=
  [CallSubmitInitiateLoad s3_initiate; CallSubmitManage s3_manage1;
   CallCompleteLoad 0 0x1000; CallSubmitManage s3_manage2;
   CallCompleteLoad 0x1000 0x1000].

Definition s3_memory : PhysicalMemory := mkPhysicalMemory 0x200000 ∅.

(** ** Concrete states *)

(** A root view over pages that start at 0x100000. *)
Definition example_view : VirtualView :=
  mkVirtualView (fun offset => 0x100000 + Z.to_N offset).

(** A two-layer chain over the view, and an allocator that starts at
    0x200000. *)
Definition example_chain : CowBundle :=
  CowBundle_of_chain (CowBundle_of_view example_view 0 0x2000) 0x1000 0x1000.

Definition example_memory : PhysicalMemory :=
  mkPhysicalMemory 0x200000 {[ 0x101000 := 0xaa ]}.

(** The chain after a fetch of offset 0: both layers hold a copy. *)
Definition example_fetched : CowBundle :=
  mkCowBundle None
    (Some (mkCowBundle (Some example_view) None 0 {[ 1%Z := 0x200000 ]}))
    0x1000 {[ 0%Z := 0x201000 ]}.

(** The holes of scenario S1: user range [0x1000, 0x10000) with mappings
    at [0x2000, 0x3000) and [0x5000, 0x6000). *)
Definition example_holes : HoleTree :=
  insertHole (Hole_new 0x6000 0xa000)
    (insertHole (Hole_new 0x3000 0x2000)
       (insertHole (Hole_new 0x1000 0x1000) Leaf)).

(** ... and the same tree after a left rotation at the root. *)
Definition example_rotated : HoleTree := at_path rotateLeft [] example_holes.

(** An address space with the two mappings of scenario S1. *)
Definition example_space : AddressSpace :=
  mkAddressSpace example_rotated
    [mkMapping 0x2000 0x1000 (N.lor protRead protWrite);
     mkMapping 0x5000 0x1000 protRead].

(** A fault handler that never completes at once. *)
Definition pending_handler (m : Mapping) (node : FaultNode) : bool * FaultNode :=
  (false, node).

(** ** Memory objects and their tags *)

(** [enum class MemoryTag] *)
Module MemoryTag.

Inductive t : Type :=
| null
| hardware
| allocated
| backing
| frontal
| copyOnWrite.

(** [operator==] on the enumeration. *)
Definition eqb (a b : t) : bool :=
  match a, b with
  | null, null | hardware, hardware | allocated, allocated
  | backing, backing | frontal, frontal | copyOnWrite, copyOnWrite => true
  | _, _ => false
  end.

End MemoryTag.

(** [struct Memory : MemoryBundle]: [Memory(MemoryTag tag) : _tag(tag)]. *)
Record Memory : Type := mkMemory { _tag : MemoryTag.t }.

(** [MemoryTag tag() const { return _tag; }] *)
Definition tag (memory : Memory) : MemoryTag.t := _tag memory.

(** The [classOf] tests of the four subclasses. *)
Definition HardwareMemory_classOf (memory : Memory) : bool :=
  MemoryTag.eqb (tag memory) MemoryTag.hardware.

Definition AllocatedMemory_classOf (memory : Memory) : bool :=
  MemoryTag.eqb (tag memory) MemoryTag.allocated.

Definition BackingMemory_classOf (memory : Memory) : bool :=
  MemoryTag.eqb (tag memory) MemoryTag.backing.

Definition FrontalMemory_classOf (memory : Memory) : bool :=
  MemoryTag.eqb (tag memory) MemoryTag.frontal.

(** [struct BackingMemory : Memory] and [struct FrontalMemory : Memory]:
    the base object and the shared pointer to the managed space (its
    address). *)
Record BackingMemory : Type := mkBackingMemory {
  backing_base : Memory;
  backing_managed : N
}.

Record FrontalMemory : Type := mkFrontalMemory {
  frontal_base : Memory;
  frontal_managed : N
}.

(** [BackingMemory(frigg::SharedPtr<ManagedSpace> managed)
     : Memory(MemoryTag::backing), _managed(frigg::move(managed)) { }] *)
Definition BackingMemory_new (managed : N) : BackingMemory :=
  mkBackingMemory (mkMemory MemoryTag.backing) managed.

(** [FrontalMemory(frigg::SharedPtr<ManagedSpace> managed)
     : Memory(MemoryTag::frontal), _managed(frigg::move(managed)) { }] *)
Definition FrontalMemory_new (managed : N) : FrontalMemory :=
  mkFrontalMemory (mkMemory MemoryTag.frontal) managed.

(** How many of the four [classOf] tests accept a memory object. *)
Definition classes_of (memory : Memory) : nat :=
  Nat.b2n (HardwareMemory_classOf memory)
  + Nat.b2n (AllocatedMemory_classOf memory)
  + Nat.b2n (BackingMemory_classOf memory)
  + Nat.b2n (FrontalMemory_classOf memory).

(** ** Orders of the trees *)

(** [MappingLess] *)
Definition MappingLess (a b : Mapping) : bool :=
  mapping_address a <? mapping_address b.

(** ** ForeignSpaceAccessor *)

(** [struct ForeignSpaceAccessor]: the shared pointer to the space ([None]
    is the null pointer) and three plain members, [None] while nothing
    has been stored in them. *)
Record ForeignSpaceAccessor : Type := mkAccessor {
  _space : option N;
  accessor_address : option N;
  accessor_length : option N;
  _acquired : option bool
}.

(** [ForeignSpaceAccessor() : _acquired{false} { }] *)
Definition ForeignSpaceAccessor_default : ForeignSpaceAccessor :=
  mkAccessor None None None (Some false).

(** [ForeignSpaceAccessor(frigg::SharedPtr<AddressSpace> space,
       void *address, size_t length)
     : _space(frigg::move(space)), _address(address), _length(length) { }] *)
Definition ForeignSpaceAccessor_new (space : option N) (address length : N)
  : ForeignSpaceAccessor :=
  mkAccessor space (Some address) (Some length) None.

(** [friend void swap(ForeignSpaceAccessor &a, ForeignSpaceAccessor &b)]:
    the four members are exchanged one by one. *)
Definition swap (a b : ForeignSpaceAccessor)
  : ForeignSpaceAccessor * ForeignSpaceAccessor :=
  let '(a_space, b_space) := (_space b, _space a) in
  let '(a_address, b_address) := (accessor_address b, accessor_address a) in
  let '(a_length, b_length) := (accessor_length b, accessor_length a) in
  let '(a_acquired, b_acquired) := (_acquired b, _acquired a) in
  (mkAccessor a_space a_address a_length a_acquired,
   mkAccessor b_space b_address b_length b_acquired).

(** [ForeignSpaceAccessor(ForeignSpaceAccessor &&other)
     : ForeignSpaceAccessor() { swap( *this, other); }]:
    the new object and what is left of [other]. *)
Definition ForeignSpaceAccessor_move (other : ForeignSpaceAccessor)
  : ForeignSpaceAccessor * ForeignSpaceAccessor :=
  swap ForeignSpaceAccessor_default other.

(** [ForeignSpaceAccessor &operator= (ForeignSpaceAccessor other)
     { swap( *this, other); return *this; }] called on an rvalue
    [source]: the parameter is move-constructed from [source] (the copy
    constructor is deleted), swapped with [*this] and destroyed.  The
    result is [*this], what is left of [source], and the object that is
    destroyed. *)
Definition ForeignSpaceAccessor_assign (this source : ForeignSpaceAccessor)
  : ForeignSpaceAccessor * ForeignSpaceAccessor * ForeignSpaceAccessor :=
  let '(other, source') := ForeignSpaceAccessor_move source in
  let '(this', other') := swap this other in
  (this', source', other').

End Thor.

(* ===================================================================== *)
(** * ld-server: the segments of an object *)
(* ===================================================================== *)

Module LdServer.

Local Open Scope N_scope.

(** [uintptr_t], [size_t] and the ELF-64 fields are 64-bit unsigned. *)
Definition wrap64 (x : N) : N := x mod 2 ^ 64.
Definition add64 (a b : N) : N := wrap64 (a + b).
Definition sub64 (a b : N) : N := wrap64 (a + 2 ^ 64 - b).

Definition is_uint64 (x : N) : Prop := x < 2 ^ 64.

(** [constexpr size_t kPageSize = 0x1000;] *)
Definition kPageSize : N := 0x1000.

(** The constants of [frigg/elf.hpp], which is not among the sources. *)
Record ElfConstants : Type := mkElfConstants {
  PT_LOAD : N;
  PT_DYNAMIC : N;
  PF_X : N;
  PF_W : N;
  PF_R : N;
  ET_EXEC : N;
  ET_DYN : N
}.

(** Their values in the ELF-64 object file format. *)
Definition elf64 : ElfConstants := mkElfConstants 1 2 1 2 4 2 3.

(** [Elf64_Ehdr], as far as [readObject] reads it.  The program header
    table that [e_phoff], [e_phentsize] and [e_phnum] locate is passed to
    [readObject] as the list of its [e_phnum] headers. *)
Record Elf64_Ehdr : Type := mkEhdr {
  e_ident : list Byte.byte;
  e_type : N;
  e_entry : N
}.

(** [Elf64_Phdr] *)
Record Elf64_Phdr : Type := mkPhdr {
  p_type : N;
  p_flags : N;
  p_offset : N;
  p_vaddr : N;
  p_paddr : N;
  p_filesz : N;
  p_memsz : N;
  p_align : N
}.

Definition phdr_in_range (phdr : Elf64_Phdr) : Prop :=
  p_type phdr < 2 ^ 32 /\ p_flags phdr < 2 ^ 32 /\
  is_uint64 (p_offset phdr) /\ is_uint64 (p_vaddr phdr) /\
  is_uint64 (p_paddr phdr) /\ is_uint64 (p_filesz phdr) /\
  is_uint64 (p_memsz phdr) /\ is_uint64 (p_align phdr).

(** [struct UniqueSegment : BaseSegment] *)
Record UniqueSegment : Type := mkUniqueSegment {
  elfType : N;
  elfFlags : N;
  virtAddress : N;
  virtLength : N;
  fileDisplacement : N;
  fileOffset : N;
  fileLength : N
}.

(** [struct SharedSegment : BaseSegment] *)
Record SharedSegment : Type := mkSharedSegment {
  shared_elfType : N;
  shared_elfFlags : N;
  shared_virtAddress : N;
  shared_virtLength : N;
  memory : N
}.

(** [typedef util::Variant<SharedSegment, UniqueSegment> Segment;] *)
Inductive Segment : Type :=
| Shared (s : SharedSegment)
| Unique (u : UniqueSegment).

(** [struct Object] *)
Record Object : Type := mkObject {
  imagePtr : N;
  entry : N;
  dynamic : N;
  segments : list Segment
}.

Section ReadObject.

Variable elf : ElfConstants.

Definition perm_mask : N := N.lor (N.lor (PF_R elf) (PF_W elf)) (PF_X elf).

(** The two permitted combinations of segment permissions; anything
    else reaches the panic logger. *)
Definition permissions_legal (flags : N) : bool :=
  (N.land flags perm_mask =? N.lor (PF_R elf) (PF_W elf))
  || (N.land flags perm_mask =? N.lor (PF_R elf) (PF_X elf)).

(** Lines 846-855: align the virtual address and the length to the page
    size and build the segment. *)
Definition load_segment (phdr : Elf64_Phdr) : UniqueSegment :=
  let virt_address := p_vaddr phdr in
  let virt_address := sub64 virt_address (virt_address mod kPageSize) in
  let virt_length := sub64 (add64 (p_vaddr phdr) (p_memsz phdr)) virt_address in
  let virt_length :=
    if negb (virt_length mod kPageSize =? 0)
    then add64 virt_length (sub64 kPageSize (virt_length mod kPageSize))
    else virt_length in
  mkUniqueSegment (p_type phdr) (p_flags phdr) virt_address virt_length
    (sub64 (p_vaddr phdr) virt_address) (p_offset phdr) (p_filesz phdr).

(** The body of the loop over the program headers.  A panic or a failed
    [ASSERT] stops the server: [None]. *)
Definition read_phdr (object : Object) (phdr : Elf64_Phdr) : option Object :=
  if p_type phdr =? PT_LOAD elf then
    if negb (permissions_legal (p_flags phdr)) then None
    else if negb (0 <? p_memsz phdr) then None
    else Some (mkObject (imagePtr object) (entry object) (dynamic object)
                 (segments object ++ [Unique (load_segment phdr)]))
  else if p_type phdr =? PT_DYNAMIC elf then
    Some (mkObject (imagePtr object) (entry object) (p_vaddr phdr)
            (segments object))
  else Some object.

(** [for(int i = 0; i < ehdr->e_phnum; i++)] over the headers of the
    image. *)
Fixpoint read_phdrs (object : Object) (phdrs : list Elf64_Phdr)
  : option Object :=
  match phdrs with
  | [] => Some object
  | phdr :: rest =>
      match read_phdr object phdr with
      | Some object' => read_phdrs object' rest
      | None => None
      end
  end.

(** [ASSERT(ehdr->e_ident[0] == 0x7F && ehdr->e_ident[1] == 'E'
            && ehdr->e_ident[2] == 'L' && ehdr->e_ident[3] == 'F')];
    [e_ident] lists the bytes of the array from its start, and an index
    past the end of the list reads as 0. *)
Definition ident_ok (ehdr : Elf64_Ehdr) : bool :=
  Byte.eqb (nth 0 (e_ident ehdr) Byte.x00) Byte.x7f
  && Byte.eqb (nth 1 (e_ident ehdr) Byte.x00) Byte.x45
  && Byte.eqb (nth 2 (e_ident ehdr) Byte.x00) Byte.x4c
  && Byte.eqb (nth 3 (e_ident ehdr) Byte.x00) Byte.x46.

(** [ASSERT(ehdr->e_type == ET_EXEC || ehdr->e_type == ET_DYN)] *)
Definition type_ok (ehdr : Elf64_Ehdr) : bool :=
  (e_type ehdr =? ET_EXEC elf) || (e_type ehdr =? ET_DYN elf).

(** [readObject], once the image is mapped at [image_ptr]: the two
    assertions on the ELF header, a fresh object with the image pointer
    and the entry point, then the program headers.  A failed assertion
    stops the server: [None]. *)
Definition readObject (image_ptr : N) (ehdr : Elf64_Ehdr)
    (phdrs : list Elf64_Phdr) : option Object :=
  if negb (ident_ok ehdr) then None
  else if negb (type_ok ehdr) then None
  else read_phdrs (mkObject image_ptr (e_entry ehdr) 0 []) phdrs.

End ReadObject.

(** The ELF header of an executable image with the given entry point. *)
Definition exec_ehdr (entry_point : N) : Elf64_Ehdr :=
  mkEhdr [Byte.x7f; Byte.x45; Byte.x4c; Byte.x46; Byte.x02; Byte.x01] 2
    entry_point.

(** A loadable read-write header of [2 ^ 64 - 1] bytes at address 0. *)
Definition huge_phdr : Elf64_Phdr :=
  mkPhdr 1 6 0 0 0 0 (2 ^ 64 - 1) 0x1000.

(** A loadable read-execute header: 0x234 bytes at 0x401f00. *)
Definition text_phdr : Elf64_Phdr :=
  mkPhdr 1 5 0x1f00 0x401f00 0x401f00 0x234 0x234 0x1000.

(** ** sendObject *)

(** [managarm::ld_server::Access], as far as [sendObject] uses it. *)
Inductive Access : Type :=
| READ_WRITE
| READ_EXECUTE.

(** What a memory handle stands for: the handle a shared segment came
    with, or the memory allocated and filled for a unique segment. *)
Inductive MemoryObject : Type :=
| SharedMemory (handle : N)
| FilledMemory (bytes : list Byte.byte).

(** The fields emitted for one segment and for the whole response. *)
Record SegmentMessage : Type := mkSegmentMessage {
  virt_address : N;
  virt_length : N;
  access : Access
}.

Record ServerResponse : Type := mkServerResponse {
  response_entry : N;
  response_dynamic : N;
  response_segments : list SegmentMessage
}.

(** What goes down the pipe: [helSendDescriptor] and [helSendString]
    with their request and sequence numbers. *)
Inductive PipeAction : Type :=
| SendDescriptor (memory : MemoryObject) (msg_request msg_seq : N)
| SendString (response : ServerResponse) (msg_request msg_seq : N).

Definition action_request (a : PipeAction) : N :=
  match a with
  | SendDescriptor _ msg_request _ => msg_request
  | SendString _ msg_request _ => msg_request
  end.

Definition action_seq (a : PipeAction) : N :=
  match a with
  | SendDescriptor _ _ msg_seq => msg_seq
  | SendString _ _ msg_seq => msg_seq
  end.

(** [memcpy(dest + dest_offset, src + src_offset, n)]: nothing is
    accessed for [n = 0]; otherwise both ranges have to lie inside their
    objects, or the copy leaves them: [None]. *)
Definition memcpy (dest : list Byte.byte) (dest_offset : N)
    (src : list Byte.byte) (src_offset n : N) : option (list Byte.byte) :=
  if n =? 0 then Some dest
  else if (dest_offset + n <=? N.of_nat (length dest))
          && (src_offset + n <=? N.of_nat (length src))
  then Some (firstn (N.to_nat dest_offset) dest
             ++ firstn (N.to_nat n) (skipn (N.to_nat src_offset) src)
             ++ skipn (N.to_nat (dest_offset + n)) dest)
  else None.

(** Lines 889-897: allocate and map [virtLength] bytes, clear them, and
    copy [fileLength] bytes of the image from [fileOffset] to
    [fileDisplacement]. *)
Definition segment_image (image : list Byte.byte) (segment : UniqueSegment)
  : option (list Byte.byte) :=
  let map_pointer := repeat Byte.x00 (N.to_nat (virtLength segment)) in
  memcpy map_pointer (fileDisplacement segment)
    image (fileOffset segment) (fileLength segment).

(** What [frigg/protobuf.hpp] and the generated
    [ld-server.nakedpb.hpp], neither among the sources, contribute to
    [sendObject]: the number of bytes that [emitUInt64] and [emitInt32]
    append to a writer for a field and a value, and [emitMessage] for a
    field and an inner writer of a given size; the field numbers; the
    values of the access enumeration. *)
Record Protobuf : Type := mkProtobuf {
  uint64_bytes : N -> N -> N;
  int32_bytes : N -> N -> N;
  message_bytes : N -> N -> N;
  kField_entry : N;
  kField_dynamic : N;
  kField_segments : N;
  kField_virt_address : N;
  kField_virt_length : N;
  kField_access : N;
  access_value : Access -> N
}.

(** The capacities of [protobuf::FixedWriter<128> object_writer] and
    [protobuf::FixedWriter<16> segment_writer]. *)
Definition object_writer_capacity : N := 128.
Definition segment_writer_capacity : N := 16.

Section SendObject.

Variable elf : ElfConstants.
Variable proto : Protobuf.

(** What the three emit calls of lines 901-915 append to the segment
    writer. *)
Definition segment_bytes (base_address address length : N) (acc : Access) : N :=
  uint64_bytes proto (kField_virt_address proto) (add64 base_address address)
  + uint64_bytes proto (kField_virt_length proto) length
  + int32_bytes proto (kField_access proto) (access_value proto acc).

(** What the two emit calls of lines 867-872 append to the object
    writer. *)
Definition header_bytes (base_address : N) (object : Object) : N :=
  uint64_bytes proto (kField_entry proto) (add64 base_address (entry object))
  + uint64_bytes proto (kField_dynamic proto)
      (add64 base_address (dynamic object)).

(** Lines 908-919: the access of a segment; any other combination of
    permissions reaches the panic logger. *)
Definition segment_access (flags : N) : option Access :=
  if N.land flags (perm_mask elf) =? N.lor (PF_R elf) (PF_W elf)
  then Some READ_WRITE
  else if N.land flags (perm_mask elf) =? N.lor (PF_R elf) (PF_X elf)
  then Some READ_EXECUTE
  else None.

(** The body of the loop over the segments at index [i], then the rest
    of the loop: the segment messages and the descriptors sent.  [used]
    is the fill of the object writer.  What a [FixedWriter] does with a
    write past its capacity is in [frigg/protobuf.hpp], not among the
    sources: a segment whose fields do not fit the segment writer, or
    whose message does not fit what is left of the object writer, gives
    no response here: [None]. *)
Fixpoint send_segments (image : list Byte.byte) (base_address : N) (i : N)
    (used : N) (segs : list Segment)
  : option (list SegmentMessage * list PipeAction) :=
  match segs with
  | [] => Some ([], [])
  | wrapper :: rest =>
      let prepared :=
        match wrapper with
        | Shared segment =>
            Some (SharedMemory (memory segment), shared_elfFlags segment,
                  shared_virtAddress segment, shared_virtLength segment)
        | Unique segment =>
            match segment_image image segment with
            | Some bytes =>
                Some (FilledMemory bytes, elfFlags segment,
                      virtAddress segment, virtLength segment)
            | None => None
            end
        end in
      match prepared with
      | Some (memory, flags, address, length) =>
          match segment_access flags with
          | Some acc =>
              let inner := segment_bytes base_address address length acc in
              let used' :=
                used + message_bytes proto (kField_segments proto) inner in
              if (inner <=? segment_writer_capacity)
                 && (used' <=? object_writer_capacity)
              then
                match send_segments image base_address (i + 1) used' rest with
                | Some (messages, actions) =>
                    Some (mkSegmentMessage (add64 base_address address)
                            length acc :: messages,
                          SendDescriptor memory 1 (add64 1 i) :: actions)
                | None => None
                end
              else None
          | None => None
          end
      | None => None
      end
  end.

(** [sendObject]: entry and dynamic address go into the object writer,
    then the descriptors of the segments in order, then the response.
    [image] is the mapped file [object->imagePtr] points to. *)
Definition sendObject (image : list Byte.byte) (pipe : N) (request_id : N)
    (object : Object) (base_address : N) : option (list PipeAction) :=
  if header_bytes base_address object <=? object_writer_capacity then
    match send_segments image base_address 0
            (header_bytes base_address object) (segments object) with
    | Some (messages, actions) =>
        Some (actions
              ++ [SendString
                    (mkServerResponse (add64 base_address (entry object))
                       (add64 base_address (dynamic object)) messages)
                    1 0])
    | None => None
    end
  else None.




(** The headers that set [object->dynamic]. *)
Definition sets_dynamic (phdr : Elf64_Phdr) : bool :=
  negb (p_type phdr =? PT_LOAD elf) && (p_type phdr =? PT_DYNAMIC elf).

(** The loadable headers that stop [readObject]. *)
Definition stops_reading (phdr : Elf64_Phdr) : Prop :=
  p_type phdr = PT_LOAD elf /\
  (permissions_legal elf (p_flags phdr) = false \/ p_memsz phdr = 0).


End SendObject.

(** Sizes as in the protocol buffers wire format, for the examples: one
    byte for the key of a field, seven bits of a value per byte. *)
Definition varint_bytes (value : N) : N := N.log2 value / 7 + 1.

Definition example_protobuf : Protobuf :=
  mkProtobuf (fun _ value => 1 + varint_bytes value)
    (fun _ value => 1 + varint_bytes value)
    (fun _ inner => 1 + varint_bytes inner + inner)
    1 2 3 1 2 3
    (fun acc => match acc with READ_WRITE => 1 | READ_EXECUTE => 2 end).

(** A small image, and a header that loads 0x10 of its bytes into a
    segment of 0x20 bytes at 0x401ff8. *)
Definition small_image : list Byte.byte := repeat Byte.x90 0x40.

Definition small_phdr : Elf64_Phdr :=
  mkPhdr 1 6 0x20 0x401ff8 0x401ff8 0x10 0x20 0x1000.

Definition dynamic_phdr : Elf64_Phdr :=
  mkPhdr 2 6 0x30 0x402000 0x402000 0x10 0x10 8.

End LdServer.

(* ===================================================================== *)
(** * Facts about the checksum *)
(* ===================================================================== *)

Module ChecksumFacts.
Import Checksum.

Local Open Scope N_scope.

Section Accumulator.

Variable state_bits : N.

Local Abbreviation wrap := (wrap state_bits).
Local Abbreviation update := (update state_bits).
Local Abbreviation update_loop := (update_loop state_bits).
Local Abbreviation update_bytes := (update_bytes state_bits).
Local Abbreviation update_all := (update_all state_bits).
Local Abbreviation fold_carries := (fold_carries state_bits).
Local Abbreviation finalize := (finalize state_bits).

(** ** The loops unfolded *)

Lemma update_loop_step mem iter_ end_ c :
  update_loop mem iter_ end_ c =
    if Z_lt_dec iter_ end_ then
      match mem iter_ with
      | None => OutOfBounds iter_
      | Some b0 =>
          match mem (iter_ + 1)%Z with
          | None => OutOfBounds (iter_ + 1)
          | Some b1 =>
              update_loop mem (iter_ + 2)%Z end_ (update c (be_word b0 b1))
          end
      end
    else Done c.
Proof.
  rewrite update_loop_equation_1.
  destruct (Z_lt_dec iter_ end_); simpl; [|reflexivity].
  destruct (mem iter_); simpl; [|reflexivity].
  destruct (mem (iter_ + 1)%Z); reflexivity.
Qed.

Lemma fold_carries_step s :
  fold_carries s =
    if N.eq_dec (N.shiftr s 16) 0 then s
    else fold_carries (wrap (N.shiftr s 16 + N.land s 0xffff)).
Proof.
  rewrite fold_carries_equation_1.
  destruct (N.eq_dec (N.shiftr s 16) 0); reflexivity.
Qed.

(** ** The byte loop on memory that holds a given list *)

Lemma pair_induction (P : list Byte.byte -> Prop) :
  P [] -> (forall b, P [b]) ->
  (forall b0 b1 l, P l -> P (b0 :: b1 :: l)) ->
  forall l, P l.
Proof.
  intros Hnil Hone Htwo l.
  enough (P l /\ forall b, P (b :: l)) by tauto.
  induction l as [|a l [IHl IHcons]]; split; auto.
Qed.

Lemma holds_at_buffer bs : holds_at (buffer bs) 0 bs.
Proof.
  intros i _. unfold buffer.
  destruct (Z.ltb_spec (0 + Z.of_nat i) 0); [lia|].
  f_equal. lia.
Qed.

Lemma holds_at_buffer_after p bs : holds_at (buffer_after [p] bs) (-1) (p :: bs).
Proof.
  intros i _. unfold buffer_after, buffer.
  change (Z.of_nat (length [p])) with 1%Z.
  destruct (Z.ltb_spec (-1 + Z.of_nat i + 1) 0); [lia|].
  change ([p] ++ bs) with (p :: bs). f_equal. lia.
Qed.

Lemma holds_at_tail mem base b0 b1 l :
  holds_at mem base (b0 :: b1 :: l) ->
  mem base = Some b0 /\ mem (base + 1)%Z = Some b1 /\ holds_at mem (base + 2) l.
Proof.
  intros H. repeat split.
  - specialize (H 0%nat). simpl in H. rewrite Z.add_0_r in H. apply H. lia.
  - specialize (H 1%nat). simpl in H. apply H. lia.
  - intros i Hi. specialize (H (S (S i))). simpl in H.
    rewrite <- H by lia. f_equal. lia.
Qed.

(** The loop consumes an even number of bytes; [end_] may fall on the
    last byte or one past it. *)
Lemma update_loop_words mem l : forall base end_ c,
  holds_at mem base l -> Nat.even (length l) = true ->
  (base + Z.of_nat (length l) - 2 < end_ <= base + Z.of_nat (length l))%Z ->
  update_loop mem base end_ c = Done (update_all (be_words l) c).
Proof.
  induction l as [|b|b0 b1 l IH] using pair_induction;
    intros base end_ c Hmem Hev Hend; simpl length in Hend.
  - rewrite update_loop_step.
    destruct (Z_lt_dec base end_); [lia|reflexivity].
  - discriminate Hev.
  - apply holds_at_tail in Hmem. destruct Hmem as (H0 & H1 & Hrest).
    rewrite update_loop_step.
    destruct (Z_lt_dec base end_); [|lia].
    rewrite H0, H1.
    rewrite IH by (assumption || lia). reflexivity.
Qed.

Lemma even_size_mod2 n : Nat.even n = true -> N.of_nat n mod 2 = 0.
Proof.
  intros H. apply Nat.even_spec in H. destruct H as [k ->].
  rewrite Nat2N.inj_mul, N.mul_comm. apply N.Div0.mod_mul.
Qed.

Lemma odd_size_mod2 n : Nat.odd n = true -> N.of_nat n mod 2 = 1.
Proof.
  intros H. apply Nat.odd_spec in H. destruct H as [k ->].
  rewrite Nat2N.inj_add, Nat2N.inj_mul, N.add_comm, N.mul_comm.
  rewrite N.Div0.mod_add. reflexivity.
Qed.

(** On a buffer of even length the code adds exactly its big-endian words
    and never leaves the buffer. *)
Lemma update_bytes_even bs c :
  Nat.even (length bs) = true ->
  update_bytes (buffer bs) (N.of_nat (length bs)) c
  = Done (update_all (be_words bs) c).
Proof.
  intros Hev. unfold update_bytes.
  rewrite (even_size_mod2 _ Hev). simpl negb. cbv iota.
  apply update_loop_words; [apply holds_at_buffer|assumption|lia].
Qed.

(** On an odd size the pointer is moved one byte before the buffer: when
    that byte [p] is readable, the code adds the words of [p :: bs] after
    one word made of the byte at index [size - 2]. *)
Lemma update_bytes_odd_after p bs c :
  Nat.odd (length bs) = true ->
  exists b, nth_error (p :: bs) (length bs - 1) = Some b /\
    update_bytes (buffer_after [p] bs) (N.of_nat (length bs)) c
    = Done (update_all (be_words (p :: bs)) (update c (pad_word b))).
Proof.
  intros Hodd.
  assert (Hlen : (1 <= length bs)%nat).
  { destruct bs; [discriminate Hodd|simpl; lia]. }
  destruct (nth_error (p :: bs) (length bs - 1)) as [b|] eqn:Hb.
  2:{ apply nth_error_None in Hb. simpl in Hb. lia. }
  exists b. split; [reflexivity|].
  unfold update_bytes. rewrite (odd_size_mod2 _ Hodd). simpl negb. cbv iota.
  pose proof (holds_at_buffer_after p bs) as Hmem.
  replace (0 - 1 + Z.of_N (N.of_nat (length bs) - 1))%Z
    with (-1 + Z.of_nat (length bs - 1))%Z by lia.
  rewrite (Hmem (length bs - 1)%nat) by (simpl; lia).
  rewrite Hb.
  change (0 - 1)%Z with (-1)%Z.
  apply update_loop_words; [assumption| |simpl length; lia].
  simpl length. rewrite Nat.even_succ. assumption.
Qed.

(** ** The accumulator after a sequence of words *)

Lemma state_update_all ws : forall a,
  state (update_all ws (mkChecksum (wrap a))) = wrap (a + sum_words ws).
Proof.
  induction ws as [|w ws IH]; intros a; simpl.
  - rewrite N.add_0_r. reflexivity.
  - replace (update (mkChecksum (wrap a)) w)
      with (mkChecksum (wrap (a + w))).
    + rewrite IH. f_equal. lia.
    + unfold Checksum.update, Checksum.wrap. simpl state.
      rewrite N.Div0.add_mod_idemp_l. reflexivity.
Qed.

Lemma state_update_all_fresh ws :
  state (update_all ws fresh) = wrap (sum_words ws).
Proof.
  change fresh with (mkChecksum 0).
  replace 0 with (wrap 0) at 1 by apply N.Div0.mod_0_l.
  apply state_update_all.
Qed.

(** ** The fold of [finalize] *)

Lemma carry_step_lt s :
  N.shiftr s 16 <> 0 -> N.shiftr s 16 + N.land s 0xffff < s.
Proof.
  intros Hne. rewrite N.shiftr_div_pow2 in *.
  change 0xffff with (N.ones 16). rewrite N.land_ones.
  pose proof (N.div_mod s (2 ^ 16) ltac:(discriminate)).
  pose proof (N.mod_lt s (2 ^ 16) ltac:(discriminate)).
  change (2 ^ 16) with 65536 in *. nia.
Qed.

Lemma end_around_carry_step s :
  end_around_carry s =
    if N.eq_dec (N.shiftr s 16) 0 then s
    else end_around_carry (N.shiftr s 16 + N.land s 0xffff).
Proof.
  rewrite end_around_carry_equation_1.
  destruct (N.eq_dec (N.shiftr s 16) 0); reflexivity.
Qed.

(** While the accumulator holds the plain sum, the fixed-width loop is
    the unbounded fold. *)
Lemma fold_carries_no_wrap s :
  s < 2 ^ state_bits -> fold_carries s = end_around_carry s.
Proof.
  induction s as [s IH] using (well_founded_induction N.lt_wf_0).
  intros Hs. rewrite fold_carries_step, end_around_carry_step.
  destruct (N.eq_dec (N.shiftr s 16) 0) as [|Hne]; [reflexivity|].
  pose proof (carry_step_lt s Hne) as Hlt.
  unfold Checksum.wrap. rewrite N.mod_small by lia.
  apply IH; lia.
Qed.

Lemma end_around_carry_lt s : end_around_carry s < 2 ^ 16.
Proof.
  induction s as [s IH] using (well_founded_induction N.lt_wf_0).
  rewrite end_around_carry_step.
  destruct (N.eq_dec (N.shiftr s 16) 0) as [Hz|Hne].
  - rewrite N.shiftr_div_pow2 in Hz.
    apply N.div_small_iff in Hz; [assumption|discriminate].
  - apply IH, carry_step_lt, Hne.
Qed.

(** The fold keeps the value modulo [0xffff], with [0xffff] standing for
    the nonzero multiples. *)
Lemma end_around_carry_mod s :
  end_around_carry s = if s =? 0 then 0 else (s - 1) mod 65535 + 1.
Proof.
  induction s as [s IH] using (well_founded_induction N.lt_wf_0).
  rewrite end_around_carry_step.
  destruct (N.eq_dec (N.shiftr s 16) 0) as [Hz|Hne].
  - rewrite N.shiftr_div_pow2 in Hz.
    apply N.div_small_iff in Hz; [|discriminate].
    change (2 ^ 16) with 65536 in Hz.
    destruct (N.eqb_spec s 0); [assumption|].
    rewrite N.mod_small by lia. lia.
  - pose proof (carry_step_lt s Hne) as Hlt.
    rewrite (IH _ Hlt).
    rewrite N.shiftr_div_pow2 in *.
    change 0xffff with (N.ones 16) in *. rewrite N.land_ones in *.
    pose proof (N.div_mod s (2 ^ 16) ltac:(discriminate)) as Hdm.
    change (2 ^ 16) with 65536 in *.
    set (q := s / 65536) in *. set (r := s mod 65536) in *.
    destruct (N.eqb_spec (q + r) 0); [lia|].
    destruct (N.eqb_spec s 0); [lia|].
    f_equal.
    replace (s - 1) with (q + r - 1 + q * 65535) by lia.
    symmetry. apply N.Div0.mod_add.
Qed.

Lemma unfold_ones_complement s :
  ones_complement_checksum s
  = N.lnot (if s =? 0 then 0 else (s - 1) mod 65535 + 1) 16.
Proof. unfold ones_complement_checksum. rewrite end_around_carry_mod. reflexivity. Qed.

(** Complementing in the accumulator's width and truncating is the
    16-bit complement. *)
Lemma lnot_truncate r :
  16 <= state_bits -> r < 2 ^ 16 ->
  to_uint16 (N.lnot r state_bits) = N.lnot r 16.
Proof.
  intros HW Hr. unfold to_uint16. apply N.bits_inj. intros m.
  destruct (N.lt_ge_cases m 16) as [Hm|Hm].
  - rewrite N.mod_pow2_bits_low by assumption.
    rewrite !N.lnot_spec_low by lia. reflexivity.
  - rewrite N.mod_pow2_bits_high by assumption.
    rewrite N.lnot_spec_high by assumption.
    symmetry. destruct (N.eq_dec r 0) as [->|Hr0]; [apply N.bits_0|].
    apply N.bits_above_log2. apply N.log2_lt_pow2 in Hr; lia.
Qed.

(** [finalize] on an accumulator that holds the plain sum. *)
Lemma finalize_no_wrap c :
  16 <= state_bits -> state c < 2 ^ state_bits ->
  finalize c = ones_complement_checksum (state c).
Proof.
  intros HW Hs. unfold Checksum.finalize, ones_complement_checksum.
  rewrite fold_carries_no_wrap by assumption.
  apply lnot_truncate; [assumption|apply end_around_carry_lt].
Qed.

(** ** Scenario S6 *)

Example be_words_s6 : be_words s6_data = [0x0001; 0xf203; 0xf4f5; 0xf6f7].
Proof. reflexivity. Qed.

Example sum_words_s6 : sum_words (be_words s6_data) = 0x2ddf0.
Proof. reflexivity. Qed.

Example end_around_carry_s6 : end_around_carry 0x2ddf0 = 0xddf2.
Proof. rewrite end_around_carry_mod. reflexivity. Qed.

(** C1: from a fresh object, [update] over the eight bytes
    00 01 F2 03 F4 F5 F6 F7 followed by [finalize] returns 0x220D; the
    accumulator only has to be wide enough for the sum of the four
    words. *)
Theorem checksum_s6 :
  18 <= state_bits ->
  exists c, update_bytes (buffer s6_data) 8 fresh = Done c /\
            finalize c = 0x220D.
Proof.
  intros HW. exists (update_all (be_words s6_data) fresh). split.
  - change 8 with (N.of_nat (length s6_data)).
    apply update_bytes_even. reflexivity.
  - assert (Hpow : 2 ^ 18 <= 2 ^ state_bits)
      by (apply N.pow_le_mono_r; [discriminate|assumption]).
    assert (Hst : state (update_all (be_words s6_data) fresh) = 0x2ddf0).
    { rewrite state_update_all_fresh.
      change (sum_words (be_words s6_data)) with 0x2ddf0.
      unfold Checksum.wrap. apply N.mod_small.
      change (2 ^ 18) with 262144 in Hpow. lia. }
    rewrite finalize_no_wrap.
    + rewrite Hst, (unfold_ones_complement 0x2ddf0). reflexivity.
    + lia.
    + rewrite Hst. change (2 ^ 18) with 262144 in Hpow. lia.
Qed.

(** ** Sequences of words *)

(** C4, as the code has it: when the plain sum [s] of the words fits the
    accumulator, [finalize] returns the 16-bit complement of the
    end-around-carry fold of [s]. *)
Theorem finalize_update_all ws :
  16 <= state_bits ->
  Forall (fun w => w < 2 ^ 16) ws ->
  sum_words ws < 2 ^ state_bits ->
  finalize (update_all ws fresh) = ones_complement_checksum (sum_words ws).
Proof.
  intros HW _ Hsum.
  assert (Hst : state (update_all ws fresh) = sum_words ws).
  { rewrite state_update_all_fresh. apply N.mod_small, Hsum. }
  rewrite finalize_no_wrap by (rewrite ?Hst; assumption).
  rewrite Hst. reflexivity.
Qed.

(** ** Odd sizes *)

(** C9: on every buffer of odd length the code reads the byte before the
    buffer, offset -1. *)
Theorem update_bytes_odd_out_of_bounds bs c :
  Nat.odd (length bs) = true ->
  update_bytes (buffer bs) (N.of_nat (length bs)) c = OutOfBounds (-1).
Proof.
  intros Hodd.
  assert (Hlen : (1 <= length bs)%nat).
  { destruct bs; [discriminate Hodd|simpl; lia]. }
  unfold update_bytes. rewrite (odd_size_mod2 _ Hodd). simpl negb. cbv iota.
  change (0 - 1)%Z with (-1)%Z.
  assert (Hbefore : buffer bs (-1)%Z = None) by reflexivity.
  destruct (Nat.eq_dec (length bs) 1%nat) as [H1|H1].
  - rewrite H1. change (-1 + Z.of_N (N.of_nat 1 - 1))%Z with (-1)%Z.
    rewrite Hbefore. reflexivity.
  - destruct (buffer bs (-1 + Z.of_N (N.of_nat (length bs) - 1))%Z) as [b|] eqn:Hb.
    + rewrite update_loop_step.
      destruct (Z_lt_dec (-1) (-1 + Z.of_N (N.of_nat (length bs)))%Z); [|lia].
      rewrite Hbefore. reflexivity.
    + unfold buffer in Hb.
      destruct (Z.ltb_spec (-1 + Z.of_N (N.of_nat (length bs) - 1))%Z 0%Z); [lia|].
      apply nth_error_None in Hb. lia.
Qed.

End Accumulator.

(** At a 32-bit accumulator. *)
Lemma checksum_s6_witness :
  18 <= 32 /\
  exists c, update_bytes 32 (buffer s6_data) 8 fresh = Done c /\
            finalize 32 c = 0x220D.
Proof.
  split; [discriminate|]. apply (checksum_s6 32). discriminate.
Defined.

Lemma finalize_update_all_witness :
  finalize 32 (update_all 32 [0xf203; 0xf4f5; 0xf6f7] fresh)
  = ones_complement_checksum (sum_words [0xf203; 0xf4f5; 0xf6f7]).
Proof.
  apply (finalize_update_all 32).
  - discriminate.
  - repeat constructor.
  - reflexivity.
Defined.

Lemma update_bytes_odd_out_of_bounds_witness :
  update_bytes 32 (buffer [Byte.xab]) 1 fresh = OutOfBounds (-1).
Proof.
  apply (update_bytes_odd_out_of_bounds 32 [Byte.xab] fresh). reflexivity.
Defined.

(** C4, as stated, fails once the sum leaves a 32-bit accumulator: the
    65538 words of [overflowing_words] add up to [2 ^ 32], the accumulator
    wraps to 0 and [finalize] returns 0xFFFF, while the checksum of the
    plain sum is 0xFFFE. *)
Lemma finalize_wraps_counterexample :
  Forall (fun w => w < 2 ^ 16) overflowing_words /\
  sum_words overflowing_words = 2 ^ 32 /\
  finalize 32 (update_all 32 overflowing_words fresh) = 0xffff /\
  ones_complement_checksum (sum_words overflowing_words) = 0xfffe /\
  finalize 32 (update_all 32 overflowing_words fresh)
  <> ones_complement_checksum (sum_words overflowing_words).
Proof.
  assert (Hsum : sum_words overflowing_words = 2 ^ 32) by (vm_compute; reflexivity).
  assert (Hfin : finalize 32 (update_all 32 overflowing_words fresh) = 0xffff).
  { unfold Checksum.finalize. rewrite state_update_all_fresh, Hsum.
    vm_compute. reflexivity. }
  assert (Hspec : ones_complement_checksum (sum_words overflowing_words) = 0xfffe).
  { rewrite Hsum, unfold_ones_complement. reflexivity. }
  split; [|split; [exact Hsum|split; [exact Hfin|split; [exact Hspec|]]]].
  - unfold overflowing_words. apply Forall_app. split.
    + apply List.Forall_forall. intros w Hw. apply repeat_spec in Hw. subst w.
      reflexivity.
    + repeat constructor.
  - rewrite Hfin, Hspec. discriminate.
Qed.

Lemma sum_words_repeat w n : sum_words (repeat w n) = w * N.of_nat n.
Proof.
  unfold sum_words. induction n as [|n IH]; [simpl; lia|].
  simpl repeat. simpl fold_right. rewrite IH. lia.
Qed.

Lemma lnot16_ones r : r < 2 ^ 16 -> N.lnot r 16 = 0xffff -> r = 0.
Proof.
  intros Hr Hnot. destruct (N.eq_dec r 0) as [|Hne]; [assumption|].
  rewrite N.lnot_sub_low in Hnot by (apply N.log2_lt_pow2; lia).
  change (N.ones 16) with 65535 in Hnot. change (2 ^ 16) with 65536 in Hr. lia.
Qed.

(** The same happens at every width of the accumulator: [2 ^ (W - 15)]
    words 0x8000 add up to [2 ^ W], the accumulator wraps to 0 and
    [finalize] returns 0xFFFF, which is not the checksum of a nonzero
    sum. *)
Lemma finalize_wraps_any_width W :
  16 <= W ->
  exists ws,
    Forall (fun w => w < 2 ^ 16) ws /\
    sum_words ws = 2 ^ W /\
    finalize W (update_all W ws fresh) = 0xffff /\
    ones_complement_checksum (sum_words ws) <> 0xffff.
Proof.
  intros HW. exists (repeat 0x8000 (N.to_nat (2 ^ (W - 15)))).
  assert (Hsum : sum_words (repeat 0x8000 (N.to_nat (2 ^ (W - 15)))) = 2 ^ W).
  { rewrite sum_words_repeat, N2Nat.id. change 0x8000 with (2 ^ 15).
    rewrite <- N.pow_add_r. f_equal. lia. }
  split; [|split; [exact Hsum|split]].
  - apply List.Forall_forall. intros w Hw. apply repeat_spec in Hw. subst w.
    reflexivity.
  - unfold finalize. rewrite state_update_all_fresh, Hsum.
    unfold wrap. rewrite N.Div0.mod_same.
    rewrite fold_carries_step. simpl.
    apply (lnot_truncate W 0); [assumption|reflexivity].
  - rewrite Hsum. unfold ones_complement_checksum. intros Hnot.
    apply lnot16_ones in Hnot; [|apply end_around_carry_lt].
    rewrite end_around_carry_mod in Hnot.
    destruct (N.eqb_spec (2 ^ W) 0) as [Hz|_].
    + apply N.pow_nonzero in Hz; [assumption|discriminate].
    + rewrite N.add_1_r in Hnot. exact (N.neq_succ_0 _ Hnot).
Qed.

(** C2, at the buffer AB CD EF of size 3: the spec asks for the words
    0xABCD and 0xEF00.  The code reads offset -1: where nothing precedes
    the buffer the access is outside, and after a readable zero byte it
    adds 0xCD00, 0x00AB and 0xCDEF instead. *)
Theorem update_odd_three_bytes :
  update_bytes 32 (buffer [Byte.xab; Byte.xcd; Byte.xef]) 3 fresh
  = OutOfBounds (-1) /\
  update_bytes 32 (buffer_after [Byte.x00] [Byte.xab; Byte.xcd; Byte.xef]) 3 fresh
  = Done (update_all 32 [0xcd00; 0x00ab; 0xcdef] fresh) /\
  be_words [Byte.xab; Byte.xcd; Byte.xef] = [0xabcd; 0xef00] /\
  update_all 32 [0xcd00; 0x00ab; 0xcdef] fresh
  <> update_all 32 [0xabcd; 0xef00] fresh.
Proof.
  repeat split; try (vm_compute; reflexivity).
  vm_compute. discriminate.
Qed.

(** ** Buffers of even size, chunks and reordering *)

(** X1: through a buffer view of even size the code reads inside the
    buffer only and adds exactly its big-endian words, in order. *)
Theorem update_view_even W bs c :
  Nat.even (length bs) = true ->
  update_view W (mkView (buffer bs) (N.of_nat (length bs))) c
  = Done (update_all W (be_words bs) c).
Proof.
  intros Hev. unfold update_view. simpl view_data. simpl view_size.
  apply update_bytes_even, Hev.
Qed.

Lemma update_view_even_witness :
  update_view 32 (mkView (buffer s6_data) (N.of_nat (length s6_data))) fresh
  = Done (update_all 32 (be_words s6_data) fresh).
Proof. apply (update_view_even 32 s6_data fresh). reflexivity. Defined.

Lemma be_words_app a : forall b,
  Nat.even (length a) = true -> be_words (a ++ b) = be_words a ++ be_words b.
Proof.
  induction a as [|x|x y a IH] using pair_induction; intros b Hev.
  - reflexivity.
  - discriminate Hev.
  - simpl. rewrite IH by exact Hev. reflexivity.
Qed.

Lemma even_length_app (a b : list Byte.byte) :
  Nat.even (length a) = true -> Nat.even (length b) = true ->
  Nat.even (length (a ++ b)) = true.
Proof.
  intros Ha Hb. rewrite length_app, Nat.even_add, Ha, Hb. reflexivity.
Qed.

(** X2: a buffer can be summed in chunks of even size: [update] over
    [a ++ b] is [update] over [a] followed by [update] over [b]. *)
Theorem update_bytes_chunks W a b c :
  Nat.even (length a) = true -> Nat.even (length b) = true ->
  update_bytes W (buffer (a ++ b)) (N.of_nat (length (a ++ b))) c
  = match update_bytes W (buffer a) (N.of_nat (length a)) c with
    | Done c' => update_bytes W (buffer b) (N.of_nat (length b)) c'
    | OutOfBounds offset => OutOfBounds offset
    end.
Proof.
  intros Ha Hb.
  rewrite (update_bytes_even W (a ++ b)) by (apply even_length_app; assumption).
  rewrite (update_bytes_even W a) by assumption.
  rewrite (update_bytes_even W b) by assumption.
  rewrite be_words_app by assumption.
  unfold update_all. rewrite fold_left_app. reflexivity.
Qed.

Lemma update_bytes_chunks_witness :
  update_bytes 32 (buffer ([Byte.x00; Byte.x01] ++ [Byte.xf2; Byte.x03]))
    (N.of_nat (length ([Byte.x00; Byte.x01] ++ [Byte.xf2; Byte.x03]))) fresh
  = match update_bytes 32 (buffer [Byte.x00; Byte.x01])
            (N.of_nat (length [Byte.x00; Byte.x01])) fresh with
    | Done c' =>
        update_bytes 32 (buffer [Byte.xf2; Byte.x03])
          (N.of_nat (length [Byte.xf2; Byte.x03])) c'
    | OutOfBounds offset => OutOfBounds offset
    end.
Proof.
  apply (update_bytes_chunks 32 [Byte.x00; Byte.x01] [Byte.xf2; Byte.x03] fresh);
    reflexivity.
Defined.

Lemma update_swap W c x y :
  update W (update W c x) y = update W (update W c y) x.
Proof.
  unfold update, wrap. simpl state. f_equal.
  rewrite !N.Div0.add_mod_idemp_l. f_equal. lia.
Qed.

(** X3: the accumulator does not depend on the order of the words, nor
    does the checksum, wrap-around included. *)
Theorem update_all_permutation W ws ws' c :
  Permutation ws ws' ->
  update_all W ws c = update_all W ws' c /\
  finalize W (update_all W ws c) = finalize W (update_all W ws' c).
Proof.
  intros Hperm.
  assert (Heq : update_all W ws c = update_all W ws' c).
  { revert c. induction Hperm as [|w l l' _ IH|x y l|l l' l'' _ IH1 _ IH2];
      intros c; unfold update_all in *; simpl.
    - reflexivity.
    - apply IH.
    - rewrite update_swap. reflexivity.
    - rewrite IH1. apply IH2. }
  split; [exact Heq|]. rewrite Heq. reflexivity.
Qed.

Lemma update_all_permutation_witness :
  update_all 32 [0xf203; 0x0001; 0xffff] fresh
  = update_all 32 [0xffff; 0xf203; 0x0001] fresh /\
  finalize 32 (update_all 32 [0xf203; 0x0001; 0xffff] fresh)
  = finalize 32 (update_all 32 [0xffff; 0xf203; 0x0001] fresh).
Proof.
  apply (update_all_permutation 32).
  apply Permutation_sym, (Permutation_cons_append [0xf203; 0x0001] 0xffff).
Defined.

(** ** What the checksum tells about the sum *)

Lemma lnot16_sub e : e < 2 ^ 16 -> N.lnot e 16 = 0xffff - e.
Proof.
  intros He. destruct (N.eq_dec e 0) as [->|Hne]; [reflexivity|].
  rewrite N.lnot_sub_low by (apply N.log2_lt_pow2; lia). reflexivity.
Qed.

Lemma ones_complement_checksum_sub s :
  ones_complement_checksum s
  = 0xffff - (if s =? 0 then 0 else (s - 1) mod 65535 + 1).
Proof.
  unfold ones_complement_checksum.
  rewrite lnot16_sub by apply end_around_carry_lt.
  rewrite end_around_carry_mod. reflexivity.
Qed.

Lemma multiple_of_ffff s :
  s <> 0 -> ((s - 1) mod 65535 = 65534 <-> s mod 65535 = 0).
Proof.
  intros Hs. split; intros H; zify; Z.to_euclidean_division_equations; lia.
Qed.

Lemma finalize_closed_form W c :
  16 <= W -> state c < 2 ^ W ->
  finalize W c
  = 0xffff - (if state c =? 0 then 0 else (state c - 1) mod 65535 + 1).
Proof.
  intros HW Hst. rewrite finalize_no_wrap by assumption.
  apply ones_complement_checksum_sub.
Qed.

(** X5: [finalize] returns 0xFFFF exactly for an accumulator that is 0,
    and 0 exactly for one that holds a nonzero multiple of 0xFFFF. *)
Theorem finalize_zero_criterion W c :
  16 <= W -> state c < 2 ^ W ->
  (finalize W c = 0xffff <-> state c = 0) /\
  (finalize W c = 0 <-> state c <> 0 /\ state c mod 0xffff = 0).
Proof.
  intros HW Hst. rewrite finalize_closed_form by assumption.
  pose proof (N.mod_lt (state c - 1) 65535 ltac:(discriminate)) as Hlt.
  destruct (N.eqb_spec (state c) 0) as [Hz|Hnz].
  - rewrite Hz. split; split; try reflexivity; try discriminate.
    intros [Hne _]. exfalso. apply Hne. reflexivity.
  - pose proof (multiple_of_ffff (state c) Hnz) as Hmult.
    revert Hlt Hmult. generalize ((state c - 1) mod 65535). intros r Hlt Hmult.
    split; split.
    + intros H. lia.
    + intros H. contradiction.
    + intros H. split; [assumption|]. apply Hmult. lia.
    + intros [_ H]. apply Hmult in H. lia.
Qed.

Lemma finalize_zero_criterion_witness :
  (finalize 32 (mkChecksum 0x1fffe) = 0xffff <-> state (mkChecksum 0x1fffe) = 0) /\
  (finalize 32 (mkChecksum 0x1fffe) = 0 <->
   state (mkChecksum 0x1fffe) <> 0 /\ state (mkChecksum 0x1fffe) mod 0xffff = 0).
Proof.
  apply (finalize_zero_criterion 32 (mkChecksum 0x1fffe)); [discriminate|reflexivity].
Defined.

(** X4: a receiver that adds the transmitted checksum to the words it
    covers finalizes to 0, as long as the accumulator has room for the
    sum. *)
Theorem finalize_verifies W ws :
  16 <= W ->
  sum_words ws + 0xffff < 2 ^ W ->
  finalize W (update W (update_all W ws fresh)
                (finalize W (update_all W ws fresh))) = 0.
Proof.
  intros HW Hroom.
  assert (Hst : state (update_all W ws fresh) = sum_words ws).
  { rewrite state_update_all_fresh. apply N.mod_small. lia. }
  set (s := sum_words ws) in *.
  rewrite (finalize_closed_form W (update_all W ws fresh))
    by (rewrite ?Hst; lia).
  rewrite Hst.
  pose proof (N.mod_lt (s - 1) 65535 ltac:(discriminate)) as Hlt.
  set (k := 0xffff - (if s =? 0 then 0 else (s - 1) mod 65535 + 1)) in *.
  assert (Hk : k <= 0xffff) by (unfold k; lia).
  assert (Hst2 : state (update W (update_all W ws fresh) k) = s + k).
  { unfold update. simpl state. rewrite Hst. apply N.mod_small. lia. }
  rewrite finalize_closed_form by (rewrite ?Hst2; lia).
  rewrite Hst2.
  assert (Hmod : s + k <> 0 /\ (s + k - 1) mod 65535 = 65534).
  { unfold k. destruct (N.eqb_spec s 0) as [->|Hnz];
      [split; [discriminate|reflexivity]|].
    pose proof (N.div_mod (s - 1) 65535 ltac:(discriminate)) as Hdiv.
    revert Hlt Hdiv.
    generalize ((s - 1) mod 65535), ((s - 1) / 65535). intros r q Hlt Hdiv.
    split; [lia|].
    replace (s + (65535 - (r + 1)) - 1) with (65534 + q * 65535) by lia.
    rewrite N.Div0.mod_add. reflexivity. }
  destruct Hmod as [Hne Hmod]. rewrite Hmod.
  destruct (N.eqb_spec (s + k) 0); [contradiction|reflexivity].
Qed.

Lemma finalize_verifies_witness :
  finalize 32 (update 32 (update_all 32 (be_words s6_data) fresh)
                 (finalize 32 (update_all 32 (be_words s6_data) fresh))) = 0.
Proof.
  apply (finalize_verifies 32 (be_words s6_data)); [discriminate|reflexivity].
Defined.

End ChecksumFacts.

(* ===================================================================== *)
(** * Facts about the thor data model *)
(* ===================================================================== *)

Module ThorFacts.
Import Thor.

Local Open Scope N_scope.

(** ** Errors *)

(** The enum of kernel.hpp has two values and cannot keep the seven kinds
    of the taxonomy apart. *)
Lemma Kernel_Error_lacks_kinds : ~ distinguishes_all_kinds Kernel.Error.
Proof.
  intros [report Hinj].
  pose proof (Hinj Success BufferTooSmall) as H12.
  pose proof (Hinj Success BadAddress) as H13.
  pose proof (Hinj BufferTooSmall BadAddress) as H23.
  destruct (report Success), (report BufferTooSmall), (report BadAddress);
    (discriminate (H12 eq_refl) || discriminate (H13 eq_refl)
     || discriminate (H23 eq_refl)).
Qed.



(** ** ManagedSpace *)















(** Scenario S3: the initiate node completes with Success after the
    second [completeLoad], not before. *)
Example s3_pager_flow :
  (exists m pm,
      calls (firstn 4 s3_calls) (ManagedSpace_new 0x2000) s3_memory
      = Some (m, pm) /\
      loadState m = [kStateLoaded; kStateLoading] /\
      completedLoadQueue m = [] /\
      map manage_offset (completedManageQueue m) = [0; 0x1000] /\
      map manage_size (completedManageQueue m) = [0x1000; 0x1000]) /\
  (exists m pm,
      calls s3_calls (ManagedSpace_new 0x2000) s3_memory = Some (m, pm) /\
      loadState m = [kStateLoaded; kStateLoaded] /\
      initiateLoadQueue m = [] /\
      map InitiateBase_error (completedLoadQueue m) = [kErrSuccess]).
Proof.
  split; eexists _, _; (split; [vm_compute; reflexivity|]);
    simpl; auto.
Qed.

(** ** CowBundle *)

(** Induction up the chain of parents. *)
Lemma CowBundle_chain_ind (P : CowBundle -> Prop) :
  (forall root offset pages, P (mkCowBundle root None offset pages)) ->
  (forall root chain offset pages,
      P chain -> P (mkCowBundle root (Some chain) offset pages)) ->
  forall b, P b.
Proof.
  intros Htop Hlayer. fix IH 1. intros [root [chain|] offset pages].
  - apply Hlayer, IH.
  - apply Htop.
Qed.

Lemma one_parent_chain_eq b :
  one_parent_chain b =
    one_parent b &&
    match _superChain b with
    | Some chain => one_parent_chain chain
    | None => true
    end.
Proof. destruct b. reflexivity. Qed.

Lemma fetchRange_eq b offset pm :
  fetchRange b offset pm =
    match _pages b !! page_index offset with
    | Some page => Some (b, page, pm)
    | None =>
        let fetched :=
          match _superChain b, _superRoot b with
          | Some chain, _ =>
              match fetchRange chain (_superOffset b + offset)%Z pm with
              | Some (chain', page, pm') => Some (Some chain', page, pm')
              | None => None
              end
          | None, Some view =>
              Some (None, view_page view (_superOffset b + offset)%Z, pm)
          | None, None => None
          end in
        match fetched with
        | Some (chain', parent_page, pm1) =>
            let '(copy, pm2) := allocate_page pm1 in
            let pm3 := copy_page copy parent_page pm2 in
            Some (mkCowBundle (_superRoot b) chain' (_superOffset b)
                    (<[page_index offset := copy]> (_pages b)),
                  copy, pm3)
        | None => None
        end
    end.
Proof. destruct b. reflexivity. Qed.

(** [fetchRange] keeps the parent references of the whole chain. *)
Lemma fetchRange_preserves b : forall offset pm b' page pm',
  one_parent_chain b = true ->
  fetchRange b offset pm = Some (b', page, pm') ->
  one_parent_chain b' = true.
Proof.
  induction b as [root offset0 pages|root chain offset0 pages IH]
    using CowBundle_chain_ind; intros offset pm b' page pm' Hinv;
    rewrite fetchRange_eq; simpl;
    destruct (pages !! page_index offset) as [local|].
  - intros [= <- <- <-]. exact Hinv.
  - destruct root as [view|]; [|discriminate].
    intros [= <- <- <-]. reflexivity.
  - intros [= <- <- <-]. exact Hinv.
  - rewrite one_parent_chain_eq in Hinv. simpl in Hinv.
    apply andb_prop in Hinv. destruct Hinv as [Hone Hchain].
    destruct (fetchRange chain (offset0 + offset)%Z pm)
      as [[[chain' parent_page] pm1]|] eqn:Hfetch; [|discriminate].
    intros [= <- <- <-].
    rewrite one_parent_chain_eq. simpl.
    apply andb_true_intro. split.
    + unfold one_parent in *. simpl in *. destruct root; assumption.
    + eapply IH; eassumption.
Qed.

(** On a bundle with its parents in place [fetchRange] has a result, which
    [peekRange] returns from then on. *)
Lemma fetchRange_total b : forall offset pm,
  one_parent_chain b = true ->
  exists b' page pm',
    fetchRange b offset pm = Some (b', page, pm') /\
    peekRange b' offset = Some page.
Proof.
  induction b as [root offset0 pages|root chain offset0 pages IH]
    using CowBundle_chain_ind; intros offset pm Hinv;
    rewrite fetchRange_eq; simpl;
    destruct (pages !! page_index offset) as [local|] eqn:Hlocal.
  - eexists _, _, _. split; [reflexivity|]. exact Hlocal.
  - destruct root as [view|]; [|discriminate Hinv].
    eexists _, _, _. split; [reflexivity|].
    unfold peekRange. simpl. apply lookup_insert_eq.
  - eexists _, _, _. split; [reflexivity|]. exact Hlocal.
  - rewrite one_parent_chain_eq in Hinv. simpl in Hinv.
    apply andb_prop in Hinv. destruct Hinv as [_ Hchain].
    destruct (IH (offset0 + offset)%Z pm Hchain)
      as (chain' & parent_page & pm1 & Hfetch & _).
    rewrite Hfetch. eexists _, _, _. split; [reflexivity|].
    unfold peekRange. simpl. apply lookup_insert_eq.
Qed.

(** C6: every bundle that the two constructors and the operations produce
    has exactly one parent reference set, and so has every bundle up its
    chain. *)
Theorem produced_one_parent b :
  produced b ->
  one_parent_chain b = true /\
  (is_Some (_superRoot b) /\ _superChain b = None \/
   _superRoot b = None /\ is_Some (_superChain b)).
Proof.
  intros Hprod.
  assert (Hchain : one_parent_chain b = true).
  { induction Hprod as [view offset size|chain offset size _ IH
                        |b offset pm b' page pm' _ IH Hfetch].
    - reflexivity.
    - rewrite one_parent_chain_eq. simpl. exact IH.
    - eapply fetchRange_preserves; eassumption. }
  split; [exact Hchain|].
  rewrite one_parent_chain_eq in Hchain. apply andb_prop in Hchain.
  destruct Hchain as [Hone _]. unfold one_parent in Hone.
  destruct (_superRoot b), (_superChain b); try discriminate; eauto.
Qed.

(** ** Faults *)

Lemma _getMapping_None space address :
  _getMapping space address = None <->
  (forall m, In m (_mappings space) -> covers m address = false).
Proof.
  unfold _getMapping. split.
  - intros Hnone m Hin. exact (List.find_none _ _ Hnone m Hin).
  - intros Hall. induction (_mappings space) as [|m ms IH]; [reflexivity|].
    simpl. rewrite (Hall m) by (left; reflexivity).
    apply IH. intros m' Hin. apply Hall. right. exact Hin.
Qed.

Section HandleFault.

Variable mapping_handleFault : Mapping -> FaultNode -> bool * FaultNode.

Local Abbreviation handleFault := (handleFault mapping_handleFault).

(** C7: a fresh node is unresolved, and a fault on an address that no
    mapping covers completes at once with the node unresolved, whatever
    the node held before. *)
Theorem handleFault_no_mapping space address flags node handled :
  (forall m, In m (_mappings space) -> covers m address = false) ->
  resolved FaultNode_new = false /\
  fst (handleFault space address flags node handled) = true /\
  resolved (snd (handleFault space address flags node handled)) = false.
Proof.
  intros Hnone. apply _getMapping_None in Hnone.
  unfold Thor.handleFault. rewrite Hnone. auto.
Qed.

(** A node comes out resolved only through the fault handler of the
    mapping that covers the address. *)
Lemma handleFault_resolved space address flags node handled :
  resolved (snd (handleFault space address flags node handled)) = true ->
  exists mapping node',
    _getMapping space address = Some mapping /\
    covers mapping address = true /\
    handleFault space address flags node handled
    = mapping_handleFault mapping node'.
Proof.
  unfold Thor.handleFault.
  destruct (_getMapping space address) as [mapping|] eqn:Hget;
    [|discriminate].
  destruct (negb (N.land flags kFaultWrite =? 0)
            && (N.land (mapping_flags mapping) protWrite =? 0));
    [discriminate|].
  destruct (negb (N.land flags kFaultExecute =? 0)
            && (N.land (mapping_flags mapping) protExecute =? 0));
    [discriminate|].
  intros _. eexists _, _. split; [reflexivity|]. split; [|reflexivity].
  unfold _getMapping in Hget. apply List.find_some in Hget. apply Hget.
Qed.

End HandleFault.

(** ** Holes *)

Lemma aggregate_of_link l h r :
  aggregate_of l (snd (aggregate l h r)) r = aggregate_of l h r.
Proof. reflexivity. Qed.

Lemma check_tree_link c l h r :
  check_tree l = true -> check_tree r = true ->
  check_tree (link c l h r) = true.
Proof.
  intros Hl Hr. unfold link. simpl. rewrite Hl, Hr.
  unfold check_invariant. simpl. rewrite N.eqb_refl. reflexivity.
Qed.

Lemma check_tree_Node c l h r :
  check_tree (Node c l h r) = true <->
  largestHole h = aggregate_of l h r /\
  check_tree l = true /\ check_tree r = true.
Proof.
  simpl. unfold check_invariant.
  rewrite !andb_true_iff, N.eqb_eq. tauto.
Qed.

Lemma check_tree_insertHole h t :
  check_tree t = true -> check_tree (insertHole h t) = true.
Proof.
  induction t as [|c l IHl x r IHr]; intros Ht; cbn [insertHole].
  - apply check_tree_link; reflexivity.
  - apply check_tree_Node in Ht. destruct Ht as (_ & Hl & Hr).
    destruct (HoleLess h x); apply check_tree_link; auto.
Qed.

Lemma check_tree_removeMin l : forall c h r,
  check_tree l = true -> check_tree r = true ->
  check_tree (snd (removeMin c l h r)) = true.
Proof.
  induction l as [|cl ll IHll hl rl _]; intros c h r Hl Hr; cbn [removeMin].
  - exact Hr.
  - apply check_tree_Node in Hl. destruct Hl as (_ & Hll & Hrl).
    specialize (IHll cl hl rl Hll Hrl).
    destruct (removeMin cl ll hl rl) as [m l']. cbn [snd] in *.
    apply check_tree_link; assumption.
Qed.

Lemma check_tree_removeHole address t :
  check_tree t = true -> check_tree (removeHole address t) = true.
Proof.
  induction t as [|c l IHl x r IHr]; intros Ht; cbn [removeHole];
    [reflexivity|].
  apply check_tree_Node in Ht. destruct Ht as (_ & Hl & Hr).
  destruct (address <? hole_address x); [apply check_tree_link; auto|].
  destruct (hole_address x <? address); [apply check_tree_link; auto|].
  destruct r as [|cr lr hr rr]; [exact Hl|].
  apply check_tree_Node in Hr. destruct Hr as (_ & Hlr & Hrr).
  pose proof (check_tree_removeMin lr cr hr rr Hlr Hrr) as Hmin.
  destruct (removeMin cr lr hr rr) as [m r']. cbn [snd] in Hmin.
  apply check_tree_link; assumption.
Qed.

(** A rotation keeps the invariant below and the aggregate at the top, so
    the nodes above the rotated pair stay right without being touched. *)
Lemma rotateLeft_spec t :
  check_tree t = true ->
  check_tree (rotateLeft t) = true /\
  subtree_largest (rotateLeft t) = subtree_largest t.
Proof.
  destruct t as [|cx a x [|cy b y d]]; auto.
  intros Ht. apply check_tree_Node in Ht. destruct Ht as (Hx & Ha & Hyt).
  apply check_tree_Node in Hyt. destruct Hyt as (Hy & Hb & Hd).
  split.
  - simpl rotateLeft. repeat apply check_tree_link; assumption.
  - simpl. rewrite Hx. unfold aggregate_of in *. simpl.
    unfold aggregate_of. rewrite Hy. lia.
Qed.

Lemma rotateRight_spec t :
  check_tree t = true ->
  check_tree (rotateRight t) = true /\
  subtree_largest (rotateRight t) = subtree_largest t.
Proof.
  destruct t as [|cy [|cx a x b] y d]; auto.
  intros Ht. apply check_tree_Node in Ht. destruct Ht as (Hy & Hxt & Hd).
  apply check_tree_Node in Hxt. destruct Hxt as (Hx & Ha & Hb).
  split.
  - simpl rotateRight. repeat apply check_tree_link; assumption.
  - simpl. rewrite Hy. unfold aggregate_of in *. simpl.
    unfold aggregate_of. rewrite Hx. lia.
Qed.

Lemma recolor_spec c t :
  check_tree t = true ->
  check_tree (recolor c t) = true /\
  subtree_largest (recolor c t) = subtree_largest t.
Proof. destruct t; auto. Qed.

Lemma at_path_spec (f : HoleTree -> HoleTree) :
  (forall t, check_tree t = true ->
             check_tree (f t) = true /\ subtree_largest (f t) = subtree_largest t) ->
  forall path t, check_tree t = true ->
    check_tree (at_path f path t) = true /\
    subtree_largest (at_path f path t) = subtree_largest t.
Proof.
  intros Hf path. induction path as [|d path IH]; intros t Ht; [apply Hf, Ht|].
  destruct t as [|c l h r]; [destruct d; auto|].
  apply check_tree_Node in Ht. destruct Ht as (Hh & Hl & Hr).
  destruct d; simpl at_path.
  - destruct (IH l Hl) as [Hl' Hsame]. split; [|reflexivity].
    apply check_tree_Node. unfold aggregate_of in *. rewrite Hsame. auto.
  - destruct (IH r Hr) as [Hr' Hsame]. split; [|reflexivity].
    apply check_tree_Node. unfold aggregate_of in *. rewrite Hsame. auto.
Qed.

Lemma reachable_check_tree t : reachable t -> check_tree t = true.
Proof.
  induction 1 as [|t address length _ IH|t address _ IH|t path _ IH
                  |t path _ IH|t path c _ IH].
  - reflexivity.
  - apply check_tree_insertHole, IH.
  - apply check_tree_removeHole, IH.
  - apply (at_path_spec rotateLeft rotateLeft_spec), IH.
  - apply (at_path_spec rotateRight rotateRight_spec), IH.
  - apply (at_path_spec (recolor c) (recolor_spec c)), IH.
Qed.

Lemma check_tree_node_of t l h r :
  check_tree t = true -> node_of t l h r ->
  largestHole h = aggregate_of l h r.
Proof.
  intros Ht Hnode. induction Hnode as [c l h r|c l h r l' h' r' _ IH
                                      |c l h r l' h' r' _ IH];
    apply check_tree_Node in Ht; destruct Ht as (Hh & Hl & Hr); auto.
Qed.

Lemma fold_max_app (l1 l2 : list N) :
  fold_right N.max 0 (l1 ++ l2)
  = N.max (fold_right N.max 0 l1) (fold_right N.max 0 l2).
Proof. induction l1 as [|a l1 IH]; simpl; [lia|]. rewrite IH. lia. Qed.

(** The aggregate of a checked subtree is the largest length in it. *)
Lemma subtree_largest_max t :
  check_tree t = true ->
  subtree_largest t = fold_right N.max 0 (hole_lengths t).
Proof.
  induction t as [|c l IHl h r IHr]; [reflexivity|]. intros Ht.
  apply check_tree_Node in Ht. destruct Ht as (Hh & Hl & Hr).
  simpl. rewrite Hh. unfold aggregate_of.
  rewrite (IHl Hl), (IHr Hr), fold_max_app. simpl. lia.
Qed.

(** C8: in every state of a hole tree reached by insertions, removals,
    rotations and recolourings, the [largestHole] of each node is the
    maximum of its own length and the [largestHole] of its two children,
    0 standing for an absent child. *)
Theorem reachable_largestHole t l h r :
  reachable t -> node_of t l h r ->
  largestHole h
  = N.max (hole_length h) (N.max (subtree_largest l) (subtree_largest r)).
Proof.
  intros Hreach Hnode.
  exact (check_tree_node_of t l h r (reachable_check_tree t Hreach) Hnode).
Qed.

(** ** The invariants at concrete states *)

Example example_fetch :
  fetchRange example_chain 0 example_memory
  = Some (example_fetched, 0x201000,
          mkPhysicalMemory 0x202000
            {[ 0x101000 := 0xaa; 0x200000 := 0xaa; 0x201000 := 0xaa ]}).
Proof. reflexivity. Qed.

Example example_rotated_shape :
  example_rotated
  = Node Red (Node Red Leaf (mkHole 0x1000 0x1000 0x1000) Leaf)
      (mkHole 0x3000 0x2000 0xa000)
      (Node Red Leaf (mkHole 0x6000 0xa000 0xa000) Leaf).
Proof. reflexivity. Qed.

Example example_remove :
  removeHole 0x3000 example_rotated
  = Node Red (Node Red Leaf (mkHole 0x1000 0x1000 0x1000) Leaf)
      (mkHole 0x6000 0xa000 0xa000) Leaf.
Proof. reflexivity. Qed.

Lemma produced_one_parent_witness :
  one_parent_chain example_fetched = true /\
  (is_Some (_superRoot example_fetched) /\ _superChain example_fetched = None \/
   _superRoot example_fetched = None /\ is_Some (_superChain example_fetched)).
Proof.
  apply (produced_one_parent example_fetched).
  apply (produced_fetch example_chain 0 example_memory example_fetched
           0x201000
           (mkPhysicalMemory 0x202000
              {[ 0x101000 := 0xaa; 0x200000 := 0xaa; 0x201000 := 0xaa ]})).
  - apply produced_of_chain, produced_of_view.
  - reflexivity.
Defined.

Lemma handleFault_no_mapping_witness :
  resolved FaultNode_new = false /\
  fst (handleFault pending_handler example_space 0x7000 kFaultWrite
         FaultNode_new 1) = true /\
  resolved (snd (handleFault pending_handler example_space 0x7000 kFaultWrite
                   FaultNode_new 1)) = false.
Proof.
  apply (handleFault_no_mapping pending_handler example_space 0x7000
           kFaultWrite FaultNode_new 1).
  intros m [<-|[<-|[]]]; reflexivity.
Defined.

Lemma reachable_largestHole_witness :
  largestHole (mkHole 0x3000 0x2000 0xa000)
  = N.max (hole_length (mkHole 0x3000 0x2000 0xa000))
      (N.max (subtree_largest (Node Red Leaf (mkHole 0x1000 0x1000 0x1000) Leaf))
             (subtree_largest (Node Red Leaf (mkHole 0x6000 0xa000 0xa000) Leaf))).
Proof.
  apply (reachable_largestHole example_rotated).
  - apply reach_rotateLeft. repeat apply reach_insert. apply reach_empty.
  - exact (node_here Red _ _ _).
Defined.

(** ** Memory tags *)

(** X12: the four [classOf] tests are mutually exclusive, a memory object
    built by [BackingMemory] or [FrontalMemory] passes its own test only,
    and the tags [null] and [copyOnWrite] pass none. *)
Theorem classOf_exclusive :
  (forall memory, (classes_of memory <= 1)%nat) /\
  (forall memory,
      classes_of memory = 0%nat <->
      tag memory = MemoryTag.null \/ tag memory = MemoryTag.copyOnWrite) /\
  (forall managed,
      BackingMemory_classOf (backing_base (BackingMemory_new managed)) = true /\
      classes_of (backing_base (BackingMemory_new managed)) = 1%nat) /\
  (forall managed,
      FrontalMemory_classOf (frontal_base (FrontalMemory_new managed)) = true /\
      classes_of (frontal_base (FrontalMemory_new managed)) = 1%nat).
Proof.
  split; [|split; [|split]].
  - intros [[]]; vm_compute; lia.
  - intros [[]]; vm_compute; split;
      try reflexivity; try discriminate; try tauto;
      intros [H|H]; discriminate H.
  - intros managed. split; reflexivity.
  - intros managed. split; reflexivity.
Qed.

(** ** The orders of the two trees *)

(** X13: [HoleLess] and [MappingLess] are strict weak orders: irreflexive
    and transitive, and two nodes are unordered exactly when they have
    the same address. *)
Theorem tree_orders_strict_weak :
  (forall a, HoleLess a a = false) /\
  (forall a b c, implb (HoleLess a b && HoleLess b c) (HoleLess a c) = true) /\
  (forall a b, negb (HoleLess a b) && negb (HoleLess b a)
               = (hole_address a =? hole_address b)) /\
  (forall a, MappingLess a a = false) /\
  (forall a b c,
      implb (MappingLess a b && MappingLess b c) (MappingLess a c) = true) /\
  (forall a b, negb (MappingLess a b) && negb (MappingLess b a)
               = (mapping_address a =? mapping_address b)).
Proof.
  unfold HoleLess, MappingLess.
  repeat split; intros;
    repeat match goal with
      | |- context [?x <? ?y] => destruct (N.ltb_spec x y)
      | |- context [?x =? ?y] => destruct (N.eqb_spec x y)
      end; simpl; try reflexivity; lia.
Qed.

(** ** Moving an accessor *)

(** X14: assigning from an rvalue hands the whole state of the source to
    the target, leaves the source as a default-constructed accessor (null
    space, not acquired) and destroys the previous state of the target;
    swapping twice changes nothing. *)
Theorem ForeignSpaceAccessor_assign_moves this source :
  ForeignSpaceAccessor_assign this source
  = (source, ForeignSpaceAccessor_default, this) /\
  (let '(a, b) := swap this source in swap a b) = (this, source) /\
  _acquired (snd (ForeignSpaceAccessor_move source)) = Some false /\
  _space (snd (ForeignSpaceAccessor_move source)) = None.
Proof.
  destruct this, source. repeat split.
Qed.

End ThorFacts.

(* ===================================================================== *)
(** * Facts about the segments of ld-server *)
(* ===================================================================== *)

Module LdServerFacts.
Import LdServer.

Local Open Scope N_scope.

(** Division and remainder by a numeral, for [lia]. *)
Ltac divmod_lia :=
  change (2 ^ 64) with 18446744073709551616 in *;
  zify; Z.to_euclidean_division_equations; lia.

(** The fields of [load_segment] in closed form: the length is the
    distance from the aligned address to the end of the segment, rounded
    up to a page, modulo [2 ^ 64]. *)
Lemma load_segment_virtAddress phdr :
  is_uint64 (p_vaddr phdr) ->
  virtAddress (load_segment phdr) = p_vaddr phdr - p_vaddr phdr mod 0x1000.
Proof.
  unfold is_uint64, load_segment, sub64, wrap64, kPageSize. simpl virtAddress.
  intros H. divmod_lia.
Qed.

Lemma load_segment_fileDisplacement phdr :
  is_uint64 (p_vaddr phdr) ->
  fileDisplacement (load_segment phdr) = p_vaddr phdr mod 0x1000.
Proof.
  unfold is_uint64, load_segment, sub64, wrap64, kPageSize.
  simpl fileDisplacement. intros H. divmod_lia.
Qed.

Lemma load_segment_page_multiple phdr :
  virtLength (load_segment phdr) mod 0x1000 = 0.
Proof.
  unfold load_segment, sub64, add64, wrap64, kPageSize. simpl virtLength.
  match goal with |- context [negb (?x =? 0)] => destruct (N.eqb_spec x 0) as [Hz|Hnz] end;
    simpl negb; cbv iota.
  - exact Hz.
  - divmod_lia.
Qed.

(** The window reaches the end of the loaded interval exactly when
    rounding the distance up to a page stays below [2 ^ 64]. *)
Lemma load_segment_covers_iff phdr :
  is_uint64 (p_vaddr phdr) -> is_uint64 (p_memsz phdr) -> 0 < p_memsz phdr ->
  p_vaddr phdr + p_memsz phdr
    <= virtAddress (load_segment phdr) + virtLength (load_segment phdr)
  <-> p_vaddr phdr mod 0x1000 + p_memsz phdr <= 2 ^ 64 - 0x1000.
Proof.
  intros Hv Hm Hpos. rewrite load_segment_virtAddress by assumption.
  unfold is_uint64, load_segment, sub64, add64, wrap64, kPageSize in *.
  simpl virtLength.
  match goal with |- context [negb (?x =? 0)] => destruct (N.eqb_spec x 0) as [Hz|Hnz] end;
    simpl negb; cbv iota.
  - split; intros H; divmod_lia.
  - split; intros H; divmod_lia.
Qed.

Section ReadObject.

Variable elf : ElfConstants.

(** A loadable header that passes the checks is recorded as the last
    segment of the object. *)
Lemma read_phdr_load object phdr object' :
  p_type phdr = PT_LOAD elf ->
  read_phdr elf object phdr = Some object' ->
  0 < p_memsz phdr /\
  permissions_legal elf (p_flags phdr) = true /\
  segments object' = segments object ++ [Unique (load_segment phdr)].
Proof.
  intros Hty. unfold read_phdr. rewrite Hty, N.eqb_refl.
  destruct (permissions_legal elf (p_flags phdr)); simpl; [|discriminate].
  destruct (N.ltb_spec 0 (p_memsz phdr)); simpl; [|discriminate].
  intros [= <-]. simpl. auto.
Qed.

(** A loadable header with legal permissions and a positive size is
    always recorded: the loop body does not stop. *)
Lemma read_phdr_load_total object phdr :
  p_type phdr = PT_LOAD elf ->
  permissions_legal elf (p_flags phdr) = true ->
  0 < p_memsz phdr ->
  exists object', read_phdr elf object phdr = Some object'.
Proof.
  intros Hty Hperm Hpos. unfold read_phdr.
  rewrite Hty, N.eqb_refl, Hperm. simpl.
  destruct (N.ltb_spec 0 (p_memsz phdr)); simpl; [eauto|lia].
Qed.

(** C10, as the code has it: the segment recorded for a loadable header
    starts at the page of [p_vaddr], has a page-multiple length and the
    displacement of [p_vaddr] in its page; its window reaches the end of
    the loaded interval when that end, rounded up to a page, stays
    below [2 ^ 64]. *)
Theorem load_segment_window object phdr object' :
  phdr_in_range phdr ->
  p_type phdr = PT_LOAD elf ->
  read_phdr elf object phdr = Some object' ->
  exists seg,
    segments object' = segments object ++ [Unique seg] /\
    0 < p_memsz phdr /\
    virtAddress seg = p_vaddr phdr - p_vaddr phdr mod 0x1000 /\
    virtLength seg mod 0x1000 = 0 /\
    fileDisplacement seg = p_vaddr phdr - virtAddress seg /\
    (p_vaddr phdr mod 0x1000 + p_memsz phdr <= 2 ^ 64 - 0x1000 ->
     p_vaddr phdr + p_memsz phdr <= virtAddress seg + virtLength seg).
Proof.
  intros (_ & _ & _ & Hv & _ & _ & Hm & _) Hty Hread.
  destruct (read_phdr_load _ _ _ Hty Hread) as (Hpos & _ & Hsegs).
  exists (load_segment phdr). repeat split; try assumption.
  - apply load_segment_virtAddress, Hv.
  - apply load_segment_page_multiple.
  - rewrite load_segment_fileDisplacement, load_segment_virtAddress
      by assumption.
    pose proof (N.Div0.mod_le (p_vaddr phdr) 0x1000) as Hle.
    revert Hle. generalize (p_vaddr phdr mod 0x1000). intros d Hle. lia.
  - intros Hfit. apply load_segment_covers_iff; assumption.
Qed.

End ReadObject.

Example load_segment_text :
  load_segment text_phdr
  = mkUniqueSegment 1 5 0x401000 0x2000 0xf00 0x1f00 0x234.
Proof. reflexivity. Qed.

Lemma load_segment_window_witness :
  exists seg,
    segments (mkObject 0 0x401f00 0 [Unique (load_segment text_phdr)])
    = [] ++ [Unique seg] /\
    0 < p_memsz text_phdr /\
    virtAddress seg = p_vaddr text_phdr - p_vaddr text_phdr mod 0x1000 /\
    virtLength seg mod 0x1000 = 0 /\
    fileDisplacement seg = p_vaddr text_phdr - virtAddress seg /\
    (p_vaddr text_phdr mod 0x1000 + p_memsz text_phdr <= 2 ^ 64 - 0x1000 ->
     p_vaddr text_phdr + p_memsz text_phdr <= virtAddress seg + virtLength seg).
Proof.
  apply (load_segment_window elf64 (mkObject 0 0x401f00 0 []) text_phdr).
  - unfold phdr_in_range, is_uint64. simpl. repeat split; reflexivity.
  - reflexivity.
  - reflexivity.
Defined.

(** C10, as stated, fails on a header whose size wraps the length: for
    [p_vaddr = 0] and [p_memsz = 2 ^ 64 - 1] the header is read, the
    recorded length is 0 and the window [0, 0) does not reach the end of
    the interval. *)
Lemma load_segment_wraps_counterexample :
  phdr_in_range huge_phdr /\
  p_type huge_phdr = PT_LOAD elf64 /\
  0 < p_memsz huge_phdr /\
  readObject elf64 0 (exec_ehdr 0) [huge_phdr]
  = Some (mkObject 0 0 0 [Unique (mkUniqueSegment 1 6 0 0 0 0 0)]) /\
  ~ (p_vaddr huge_phdr + p_memsz huge_phdr
     <= virtAddress (load_segment huge_phdr) + virtLength (load_segment huge_phdr)).
Proof.
  split; [|split; [|split; [|split]]].
  - unfold phdr_in_range, is_uint64. simpl. repeat split; reflexivity.
  - reflexivity.
  - reflexivity.
  - vm_compute. reflexivity.
  - vm_compute. intros H. apply H. reflexivity.
Qed.

(** ** The loop of readObject as a whole *)

Section ReadObjectLoop.

Variable elf : ElfConstants.

(** The first assertion fails when the first four bytes of the image are
    not the ELF magic number; bytes the model does not list read as 0. *)
Lemma ident_ok_false ehdr :
  ident_ok ehdr = false <->
  firstn 4 (e_ident ehdr ++ repeat Byte.x00 4)
  <> [Byte.x7f; Byte.x45; Byte.x4c; Byte.x46].
Proof.
  assert (Hbytes : firstn 4 (e_ident ehdr ++ repeat Byte.x00 4)
                   = [nth 0 (e_ident ehdr) Byte.x00; nth 1 (e_ident ehdr) Byte.x00;
                      nth 2 (e_ident ehdr) Byte.x00; nth 3 (e_ident ehdr) Byte.x00]).
  { destruct (e_ident ehdr) as [|b0 [|b1 [|b2 [|b3 rest]]]]; reflexivity. }
  rewrite Hbytes. unfold ident_ok.
  generalize (nth 0 (e_ident ehdr) Byte.x00) (nth 1 (e_ident ehdr) Byte.x00)
    (nth 2 (e_ident ehdr) Byte.x00) (nth 3 (e_ident ehdr) Byte.x00).
  intros b0 b1 b2 b3. rewrite <- not_true_iff_false, !andb_true_iff.
  split; intros Hne Heq; apply Hne.
  - injection Heq as -> -> -> ->. repeat split; reflexivity.
  - destruct Heq as [[[H0 H1] H2] H3].
    apply Byte.byte_dec_bl in H0, H1, H2, H3. congruence.
Qed.

Lemma type_ok_false ehdr :
  type_ok elf ehdr = false <->
  e_type ehdr <> ET_EXEC elf /\ e_type ehdr <> ET_DYN elf.
Proof.
  unfold type_ok. rewrite orb_false_iff, !N.eqb_neq. reflexivity.
Qed.

Lemma read_phdr_None object phdr :
  read_phdr elf object phdr = None <-> stops_reading elf phdr.
Proof.
  unfold read_phdr, stops_reading.
  destruct (N.eqb_spec (p_type phdr) (PT_LOAD elf)) as [Hty|Hty].
  - destruct (permissions_legal elf (p_flags phdr)); simpl.
    + destruct (N.ltb_spec 0 (p_memsz phdr)); simpl.
      * split; [discriminate|]. intros [_ [Hbad|Hzero]]; [discriminate|lia].
      * split; [|reflexivity]. intros _. split; [assumption|]. right. lia.
    + split; [|reflexivity]. intros _. split; [assumption|]. left. reflexivity.
  - destruct (p_type phdr =? PT_DYNAMIC elf);
      (split; [discriminate|]); intros [Hload _]; contradiction.
Qed.

Lemma read_phdr_Some object phdr object' :
  read_phdr elf object phdr = Some object' ->
  imagePtr object' = imagePtr object /\
  entry object' = entry object /\
  dynamic object'
  = (if sets_dynamic elf phdr then p_vaddr phdr else dynamic object) /\
  segments object'
  = segments object
    ++ (if p_type phdr =? PT_LOAD elf then [Unique (load_segment phdr)] else []).
Proof.
  unfold read_phdr, sets_dynamic.
  destruct (p_type phdr =? PT_LOAD elf); simpl.
  - destruct (permissions_legal elf (p_flags phdr)); simpl; [|discriminate].
    destruct (0 <? p_memsz phdr); simpl; [|discriminate].
    intros [= <-]. simpl. auto.
  - destruct (p_type phdr =? PT_DYNAMIC elf); intros [= <-]; simpl;
      rewrite app_nil_r; auto.
Qed.

Lemma read_phdrs_None phdrs : forall object,
  read_phdrs elf object phdrs = None <-> Exists (stops_reading elf) phdrs.
Proof.
  induction phdrs as [|phdr rest IH]; intros object; simpl.
  - split; [discriminate|]. intros H. inversion H.
  - destruct (read_phdr elf object phdr) as [object'|] eqn:Hstep.
    + rewrite IH. split; [intros H; right; exact H|].
      intros H. inversion H as [? ? Hbad|? ? Hrest]; subst; [|exact Hrest].
      apply (read_phdr_None object) in Hbad. congruence.
    + split; [|reflexivity]. intros _. left.
      apply (read_phdr_None object). exact Hstep.
Qed.

Lemma read_phdrs_Some phdrs : forall object object',
  read_phdrs elf object phdrs = Some object' ->
  imagePtr object' = imagePtr object /\
  entry object' = entry object /\
  dynamic object'
  = List.last (map p_vaddr (List.filter (sets_dynamic elf) phdrs))
      (dynamic object) /\
  segments object'
  = segments object
    ++ map (fun phdr => Unique (load_segment phdr))
         (List.filter (fun phdr => p_type phdr =? PT_LOAD elf) phdrs).
Proof.
  induction phdrs as [|phdr rest IH]; intros object object'; simpl.
  - intros [= <-]. rewrite app_nil_r. auto.
  - destruct (read_phdr elf object phdr) as [object1|] eqn:Hstep;
      [|discriminate].
    intros Hrest. apply read_phdr_Some in Hstep.
    destruct Hstep as (Hptr1 & Hentry1 & Hdyn1 & Hseg1).
    apply IH in Hrest. destruct Hrest as (Hptr & Hentry & Hdyn & Hseg).
    split; [congruence|]. split; [congruence|]. split.
    + rewrite Hdyn, Hdyn1.
      destruct (sets_dynamic elf phdr); [|reflexivity].
      simpl map.
      destruct (map p_vaddr (List.filter (sets_dynamic elf) rest)) as [|v vs];
        [reflexivity|].
      generalize (v :: vs). intros l. simpl.
      destruct l; [reflexivity|]. revert n. induction l as [|x l IHl];
        intros n; [reflexivity|]. simpl in *. apply IHl.
    + rewrite Hseg, Hseg1, <- app_assoc. f_equal.
      destruct (p_type phdr =? PT_LOAD elf); reflexivity.
Qed.

(** Past the two assertions on the header, [readObject] is the loop over
    the program headers. *)
Lemma readObject_Some image_ptr ehdr phdrs object :
  readObject elf image_ptr ehdr phdrs = Some object ->
  ident_ok ehdr = true /\ type_ok elf ehdr = true /\
  read_phdrs elf (mkObject image_ptr (e_entry ehdr) 0 []) phdrs = Some object.
Proof.
  unfold readObject.
  destruct (ident_ok ehdr); simpl; [|discriminate].
  destruct (type_ok elf ehdr); simpl; [|discriminate]. auto.
Qed.

(** X6: when [readObject] returns, the object keeps the image pointer and
    the entry point it was given, and its segments are the segments of
    the loadable headers, one each, in the order of the headers. *)
Theorem readObject_segments image_ptr ehdr phdrs object :
  readObject elf image_ptr ehdr phdrs = Some object ->
  imagePtr object = image_ptr /\
  entry object = e_entry ehdr /\
  segments object
  = map (fun phdr => Unique (load_segment phdr))
      (List.filter (fun phdr => p_type phdr =? PT_LOAD elf) phdrs).
Proof.
  intros Hread. apply readObject_Some in Hread.
  destruct Hread as (_ & _ & Hread). apply read_phdrs_Some in Hread.
  destruct Hread as (Hptr & Hentry & _ & Hseg). auto.
Qed.

(** X7: [readObject] stops exactly when the image does not start with
    the four bytes 0x7F 'E' 'L' 'F', or its type is neither [ET_EXEC] nor
    [ET_DYN], or some loadable header has an illegal combination of
    permissions or a memory size of 0; headers of any other type never
    stop it. *)
Theorem readObject_stops_iff image_ptr ehdr phdrs :
  readObject elf image_ptr ehdr phdrs = None <->
  firstn 4 (e_ident ehdr ++ repeat Byte.x00 4)
  <> [Byte.x7f; Byte.x45; Byte.x4c; Byte.x46] \/
  (e_type ehdr <> ET_EXEC elf /\ e_type ehdr <> ET_DYN elf) \/
  Exists (fun phdr =>
            p_type phdr = PT_LOAD elf /\
            (permissions_legal elf (p_flags phdr) = false \/ p_memsz phdr = 0))
    phdrs.
Proof.
  unfold readObject. rewrite <- (read_phdrs_None phdrs
                                   (mkObject image_ptr (e_entry ehdr) 0 [])).
  rewrite <- ident_ok_false, <- type_ok_false.
  destruct (ident_ok ehdr); simpl.
  - destruct (type_ok elf ehdr); simpl.
    + split; [auto|]. intros [H|[H|H]]; [discriminate|discriminate|exact H].
    + split; auto.
  - split; auto.
Qed.

(** X8: the dynamic address of the object is the [p_vaddr] of the last
    header of type [PT_DYNAMIC], and 0 when there is none. *)
Theorem readObject_dynamic image_ptr ehdr phdrs object :
  readObject elf image_ptr ehdr phdrs = Some object ->
  dynamic object
  = List.last (map p_vaddr (List.filter (sets_dynamic elf) phdrs)) 0.
Proof.
  intros Hread. apply readObject_Some in Hread.
  destruct Hread as (_ & _ & Hread). apply read_phdrs_Some in Hread.
  destruct Hread as (_ & _ & Hdyn & _). exact Hdyn.
Qed.

End ReadObjectLoop.

Lemma readObject_segments_witness :
  imagePtr (mkObject 7 0x401000 0x402000 [Unique (load_segment text_phdr)]) = 7 /\
  entry (mkObject 7 0x401000 0x402000 [Unique (load_segment text_phdr)])
  = 0x401000 /\
  segments (mkObject 7 0x401000 0x402000 [Unique (load_segment text_phdr)])
  = map (fun phdr => Unique (load_segment phdr))
      (List.filter (fun phdr => p_type phdr =? PT_LOAD elf64)
         [dynamic_phdr; text_phdr]).
Proof.
  apply (readObject_segments elf64 7 (exec_ehdr 0x401000)
           [dynamic_phdr; text_phdr]).
  reflexivity.
Defined.

Lemma readObject_dynamic_witness :
  dynamic (mkObject 7 0x401000 0x402000 [Unique (load_segment text_phdr)])
  = List.last (map p_vaddr
                 (List.filter (sets_dynamic elf64) [dynamic_phdr; text_phdr])) 0.
Proof.
  apply (readObject_dynamic elf64 7 (exec_ehdr 0x401000)
           [dynamic_phdr; text_phdr]).
  reflexivity.
Defined.

(** ** sendObject *)

Lemma firstn_repeat_le (x : Byte.byte) n m :
  (n <= m)%nat -> firstn n (repeat x m) = repeat x n.
Proof.
  revert m. induction n as [|n IH]; intros [|m] Hle; simpl;
    try reflexivity; try lia.
  f_equal. apply IH. lia.
Qed.

Lemma skipn_repeat (x : Byte.byte) n m :
  skipn n (repeat x m) = repeat x (m - n).
Proof.
  revert m. induction n as [|n IH]; intros [|m]; simpl; try reflexivity.
  apply IH.
Qed.

(** The file part of a loaded segment ends inside the segment. *)
Lemma load_segment_file_fits phdr :
  phdr_in_range phdr -> 0 < p_memsz phdr ->
  p_filesz phdr <= p_memsz phdr ->
  p_vaddr phdr mod 0x1000 + p_memsz phdr <= 2 ^ 64 - 0x1000 ->
  fileDisplacement (load_segment phdr) + fileLength (load_segment phdr)
  <= virtLength (load_segment phdr).
Proof.
  intros (_ & _ & _ & Hv & _ & _ & Hm & _) Hpos Hfile Hfit.
  pose proof (proj2 (load_segment_covers_iff phdr Hv Hm Hpos) Hfit) as Hcover.
  rewrite load_segment_virtAddress in Hcover by assumption.
  rewrite load_segment_fileDisplacement by assumption.
  change (fileLength (load_segment phdr)) with (p_filesz phdr).
  pose proof (N.Div0.mod_le (p_vaddr phdr) 0x1000) as Hle.
  revert Hcover Hle. generalize (p_vaddr phdr mod 0x1000).
  generalize (virtLength (load_segment phdr)). intros vl d Hcover Hle. lia.
Qed.

(** X9: for a loadable header whose file part fits its memory part and
    the image, and whose end does not wrap, the memory [sendObject] fills
    is the displacement in zero bytes, the file bytes, and zero bytes up
    to the length of the segment; the copy stays inside the mapping. *)
Theorem segment_image_layout image phdr :
  phdr_in_range phdr -> 0 < p_memsz phdr ->
  p_filesz phdr <= p_memsz phdr ->
  p_vaddr phdr mod 0x1000 + p_memsz phdr <= 2 ^ 64 - 0x1000 ->
  p_offset phdr + p_filesz phdr <= N.of_nat (length image) ->
  p_vaddr phdr mod 0x1000 + p_filesz phdr <= virtLength (load_segment phdr) /\
  segment_image image (load_segment phdr)
  = Some (repeat Byte.x00 (N.to_nat (p_vaddr phdr mod 0x1000))
          ++ firstn (N.to_nat (p_filesz phdr))
               (skipn (N.to_nat (p_offset phdr)) image)
          ++ repeat Byte.x00
               (N.to_nat (virtLength (load_segment phdr)
                          - p_vaddr phdr mod 0x1000 - p_filesz phdr))).
Proof.
  intros Hrange Hpos Hfile Hfit Himage.
  pose proof (load_segment_file_fits phdr Hrange Hpos Hfile Hfit) as Hin.
  destruct Hrange as (_ & _ & _ & Hv & _).
  unfold segment_image, memcpy.
  rewrite load_segment_fileDisplacement in * by assumption.
  change (fileLength (load_segment phdr)) with (p_filesz phdr) in *.
  change (fileOffset (load_segment phdr)) with (p_offset phdr).
  revert Hin. generalize (virtLength (load_segment phdr)).
  generalize (p_vaddr phdr mod 0x1000). intros d vl Hin.
  split; [exact Hin|].
  destruct (N.eqb_spec (p_filesz phdr) 0) as [Hz|Hnz].
  - rewrite Hz. simpl firstn. simpl app. rewrite <- repeat_app.
    do 2 f_equal. lia.
  - rewrite repeat_length, N2Nat.id.
    destruct (N.leb_spec (d + p_filesz phdr) vl); [|lia].
    destruct (N.leb_spec (p_offset phdr + p_filesz phdr)
                (N.of_nat (length image))); [|lia].
    simpl andb. cbv iota.
    rewrite firstn_repeat_le by lia. rewrite skipn_repeat.
    do 4 f_equal. lia.
Qed.

Lemma segment_image_layout_witness :
  p_vaddr small_phdr mod 0x1000 + p_filesz small_phdr
  <= virtLength (load_segment small_phdr) /\
  segment_image small_image (load_segment small_phdr)
  = Some (repeat Byte.x00 (N.to_nat (p_vaddr small_phdr mod 0x1000))
          ++ firstn (N.to_nat (p_filesz small_phdr))
               (skipn (N.to_nat (p_offset small_phdr)) small_image)
          ++ repeat Byte.x00
               (N.to_nat (virtLength (load_segment small_phdr)
                          - p_vaddr small_phdr mod 0x1000
                          - p_filesz small_phdr))).
Proof.
  apply (segment_image_layout small_image small_phdr).
  - unfold phdr_in_range, is_uint64. simpl. repeat split; reflexivity.
  - reflexivity.
  - discriminate.
  - discriminate.
  - discriminate.
Defined.

Section SendObject.

Variable elf : ElfConstants.
Variable proto : Protobuf.





Lemma send_segments_sequence image base_address segs : forall i used result,
  send_segments elf proto image base_address i used segs = Some result ->
  i + N.of_nat (length segs) < 2 ^ 64 ->
  length (fst result) = length segs /\
  map action_seq (snd result)
  = map (fun k => 1 + i + N.of_nat k) (seq 0 (length segs)) /\
  Forall (fun a => action_request a = 1) (snd result).
Proof.
  induction segs as [|wrapper rest IH]; intros i used result; simpl.
  - intros [= <-] _. simpl. auto.
  - intros Hsend Hbound.
    destruct (match wrapper with
              | Shared segment => _
              | Unique segment => _
              end) as [[[[mem flags] address] len]|]; [|discriminate].
    destruct (segment_access elf flags) as [acc|]; [|discriminate].
    destruct (_ && _); [|discriminate].
    destruct (send_segments elf proto image base_address (i + 1) _ rest)
      as [[messages actions]|] eqn:Hrest; [|discriminate].
    injection Hsend as <-. simpl.
    destruct (IH (i + 1) _ _ Hrest ltac:(lia)) as (Hlen & Hseq & Hreq).
    simpl in Hlen, Hseq, Hreq.
    split; [congruence|]. split.
    + f_equal.
      * unfold add64, wrap64. rewrite N.mod_small by lia. lia.
      * rewrite Hseq, <- seq_shift, map_map. apply map_ext. intros k. lia.
    + constructor; [reflexivity|exact Hreq].
Qed.

(** X11: what [sendObject] sends is one descriptor per segment with the
    sequence numbers 1, 2, ... in the order of the segments, then the
    response with sequence number 0, all under request number 1; the
    response lists as many segments as the object has. *)
Theorem sendObject_sequence image pipe request_id object base_address actions :
  sendObject elf proto image pipe request_id object base_address
  = Some actions ->
  N.of_nat (length (segments object)) < 2 ^ 64 ->
  map action_seq actions
  = map (fun k => 1 + N.of_nat k) (seq 0 (length (segments object))) ++ [0] /\
  Forall (fun a => action_request a = 1) actions /\
  exists descriptors response,
    actions = descriptors ++ [SendString response 1 0] /\
    length descriptors = length (segments object) /\
    length (response_segments response) = length (segments object) /\
    response_entry response = add64 base_address (entry object) /\
    response_dynamic response = add64 base_address (dynamic object).
Proof.
  unfold sendObject. intros Hsend Hbound.
  destruct (_ <=? _); [|discriminate].
  destruct (send_segments elf proto image base_address 0 _ (segments object))
    as [[messages descriptors]|] eqn:Hloop; [|discriminate].
  injection Hsend as <-.
  destruct (send_segments_sequence _ _ _ _ _ _ Hloop ltac:(lia))
    as (Hlen & Hseq & Hreq).
  simpl in Hlen, Hseq, Hreq.
  split; [|split].
  - rewrite map_app, Hseq. reflexivity.
  - apply Forall_app. split; [exact Hreq|]. repeat constructor.
  - exists descriptors, (mkServerResponse (add64 base_address (entry object))
                           (add64 base_address (dynamic object)) messages).
    split; [reflexivity|]. split.
    + rewrite <- (length_map action_seq), Hseq, length_map, length_seq.
      reflexivity.
    + simpl. auto.
Qed.

End SendObject.


(** Twelve such segments are more than the object writer holds. *)
Example sendObject_writer_full :
  readObject elf64 7 (exec_ehdr 0x401ff8) (repeat small_phdr 12)
  = Some (mkObject 7 0x401ff8 0
            (repeat (Unique (load_segment small_phdr)) 12)) /\
  sendObject elf64 example_protobuf small_image 3 9
    (mkObject 7 0x401ff8 0 (repeat (Unique (load_segment small_phdr)) 12))
    0x10000000
  = None.
Proof. split; vm_compute; reflexivity. Qed.

Lemma sendObject_sequence_witness :
  map action_seq
    [SendDescriptor
       (FilledMemory
          (repeat Byte.x00 0xff8 ++ repeat Byte.x90 0x10 ++ repeat Byte.x00 0xff8))
       1 1;
     SendString
       (mkServerResponse 0x10401ff8 0x10402000
          [mkSegmentMessage 0x10401000 0x2000 READ_WRITE]) 1 0]
  = map (fun k => 1 + N.of_nat k)
      (seq 0 (length [Unique (load_segment small_phdr)])) ++ [0] /\
  Forall (fun a => action_request a = 1)
    [SendDescriptor
       (FilledMemory
          (repeat Byte.x00 0xff8 ++ repeat Byte.x90 0x10 ++ repeat Byte.x00 0xff8))
       1 1;
     SendString
       (mkServerResponse 0x10401ff8 0x10402000
          [mkSegmentMessage 0x10401000 0x2000 READ_WRITE]) 1 0] /\
  exists descriptors response,
    [SendDescriptor
       (FilledMemory
          (repeat Byte.x00 0xff8 ++ repeat Byte.x90 0x10 ++ repeat Byte.x00 0xff8))
       1 1;
     SendString
       (mkServerResponse 0x10401ff8 0x10402000
          [mkSegmentMessage 0x10401000 0x2000 READ_WRITE]) 1 0]
    = descriptors ++ [SendString response 1 0] /\
    length descriptors = length [Unique (load_segment small_phdr)] /\
    length (response_segments response)
    = length [Unique (load_segment small_phdr)] /\
    response_entry response = add64 0x10000000 0x401ff8 /\
    response_dynamic response = add64 0x10000000 0x402000.
Proof.
  apply (sendObject_sequence elf64 example_protobuf small_image 3 9
           (mkObject 7 0x401ff8 0x402000 [Unique (load_segment small_phdr)])
           0x10000000).
  - vm_compute. reflexivity.
  - reflexivity.
Defined.

End LdServerFacts.
